(** * In-memory model of game text and subtitles
    (common/serialization/subtitles/subtitles_ser.h)

    Shallow embedding of the text bank, the text database, the subtitle scene,
    the subtitle bank, the subtitle database and the scene groups, followed by
    the properties established about them.

    Conventions.
    - A C++ [int] is a [Z]; no arithmetic is performed on the identifiers and
      frames handled here, so no wrap-around occurs in this code.
    - [std::map] and [std::unordered_map] are [gmap]s, [std::vector] is a list.
    - A [std::shared_ptr<T>] is the address of a heap object ([addr]); the heap
      is a [gmap] from addresses to objects, and [nullptr] is [None]. *)

From stdpp Require Import gmap strings list fin_maps sorting.

Local Open Scope string_scope.
Local Open Scope list_scope.

(** ** Failures *)

(** What a call can die of.  [assert_failed] is an [ASSERT] whose condition is
    false, [out_of_range] is the [std::out_of_range] thrown by [map::at], and
    [invalid_pointer] is the dereference of a [shared_ptr] that owns no object
    (undefined behaviour in C++). *)
Inductive failure : Type :=
  | assert_failed
  | out_of_range
  | invalid_pointer.

(** The specification's names for the first two. *)
Abbreviation DuplicateKey := assert_failed.
Abbreviation NotFound := out_of_range.

#[global] Instance failure_eq_dec : EqDecision failure.
Proof. solve_decision. Defined.

(** Result of a call that reads. *)
Inductive result (A : Type) : Type :=
  | Ok (a : A)
  | Err (e : failure).
Arguments Ok {A} a.
Arguments Err {A} e.

#[global] Instance result_ret : MRet result := λ A a, Ok a.
#[global] Instance result_bind : MBind result := λ A B f r,
  match r with
  | Ok a => f a
  | Err e => Err e
  end.

(** Result of a call that writes to an object of type [S]: the value returned
    and the object afterwards, or the failure and the object as it was when the
    call was abandoned. *)
Inductive outcome (S A : Type) : Type :=
  | Returns (a : A) (s : S)
  | Fails (e : failure) (s : S).
Arguments Returns {S A} a s.
Arguments Fails {S A} e s.

Definition state_of {S A} (o : outcome S A) : S :=
  match o with
  | Returns _ s => s
  | Fails _ s => s
  end.

(** [m.find(k) != m.end()] *)
Definition map_contains `{Countable K} {V} (m : gmap K V) (k : K) : bool :=
  match m !! k with
  | Some _ => true
  | None => false
  end.

(** [m.at(k)] *)
Definition map_at `{Countable K} {V} (m : gmap K V) (k : K) : result V :=
  match m !! k with
  | Some v => Ok v
  | None => Err out_of_range
  end.

(** [m.insert({k, v})]: nothing happens when [k] is already a key. *)
Definition map_insert_new `{Countable K} {V} (k : K) (v : V) (m : gmap K V)
    : gmap K V :=
  match m !! k with
  | Some _ => m
  | None => <[k := v]> m
  end.

(** Modelled from the spec: the macro [ASSERT] of common/util/Assert.h, which
    is not part of the sources at hand.  The operation that asserts a false
    condition fails there, before any later statement runs. *)
Definition ASSERT (EX : bool) : result unit :=
  if EX then Ok tt else Err assert_failed.

(** Address of a heap-allocated bank, the target of a [shared_ptr]. *)
Definition addr := positive.

(** ** GameTextBank *)

Module GameTextBank.

Record t : Type := mk {
  m_lang_id : Z;
  m_lines : gmap Z string
}.

(** [GameTextBank(int lang_id)] *)
Definition new (lang_id : Z) : t := mk lang_id ∅.

Definition lang (b : t) : Z := m_lang_id b.
Definition lines (b : t) : gmap Z string := m_lines b.

Definition line_exists (id : Z) (b : t) : bool := map_contains (m_lines b) id.
Definition line (id : Z) (b : t) : result string := map_at (m_lines b) id.
Definition set_line (id : Z) (line : string) (b : t) : t :=
  mk (m_lang_id b) (<[id := line]> (m_lines b)).

End GameTextBank.

(** ** GameTextDB *)

Module GameTextDB.

Record t : Type := mk {
  m_banks : gmap string (gmap Z addr)
}.

Definition empty : t := mk ∅.

Definition groups (db : t) : gmap string (gmap Z addr) := m_banks db.

Definition banks (group : string) (db : t) : result (gmap Z addr) :=
  map_at (m_banks db) group.

Definition bank_exists (group : string) (id : Z) (db : t) : bool :=
  if negb (map_contains (m_banks db) group) then false
  else
    match m_banks db !! group with
    | Some inner => map_contains inner id
    | None => false
    end.

(** [m_banks[group][lang] = bank]: the outer [operator[]] creates an empty
    inner map for a new group. *)
Definition store (group : string) (lang : Z) (bank : addr) (db : t) : t :=
  mk (<[group := <[lang := bank]> (default ∅ (m_banks db !! group))]>
        (m_banks db)).

(** [heap] is where the banks live; [add_bank] reads [bank->lang()] there. *)
Definition add_bank (heap : gmap addr GameTextBank.t)
    (group : string) (bank : addr) (db : t) : outcome t addr :=
  match heap !! bank with
  | None => Fails invalid_pointer db
  | Some b =>
    match ASSERT (negb (bank_exists group (GameTextBank.lang b) db)) with
    | Err e => Fails e db
    | Ok _ => Returns bank (store group (GameTextBank.lang b) bank db)
    end
  end.

(** The returned [option addr] is the [shared_ptr]: [None] is [nullptr]. *)
Definition bank_by_id (group : string) (id : Z) (db : t)
    : result (option addr) :=
  if negb (bank_exists group id db) then Ok None
  else
    inner ← map_at (m_banks db) group;
    bank ← map_at inner id;
    Ok (Some bank).

End GameTextDB.

(** ** std::sort as implemented by libstdc++ (GCC 12, bits/stl_algo.h and
    bits/stl_heap.h)

    The array is a list and an iterator is an index into it.  A function
    returns [None] when the C++ code would read or write outside the array,
    which is undefined behaviour there.  Ranges are well formed:
    [first <= last]. *)
Module libstdcxx.
Section sort.

Context {T : Type} (comp : T → T → bool).

(** [*(begin + i) = x] *)
Definition put (i : nat) (x : T) (a : list T) : option (list T) :=
  if decide (i < length a) then Some (<[i := x]> a) else None.

Definition iter_swap (i j : nat) (a : list T) : option (list T) :=
  x ← a !! i; y ← a !! j; a' ← put i y a; put j x a'.

Definition __move_median_to_first (result a b c : nat) (v : list T)
    : option (list T) :=
  x ← v !! a; y ← v !! b; z ← v !! c;
  if comp x y then
    if comp y z then iter_swap result b v
    else if comp x z then iter_swap result c v
    else iter_swap result a v
  else if comp x z then iter_swap result a v
  else if comp y z then iter_swap result c v
  else iter_swap result b v.

(** The loop of [__unguarded_linear_insert]; [last = 0] makes [__next] point
    before the array. *)
Fixpoint linear_insert_loop (val : T) (last : nat) (a : list T)
    : option (list T) :=
  match last with
  | O => None
  | S next =>
    x ← a !! next;
    if comp val x then a' ← put last x a; linear_insert_loop val next a'
    else put last val a
  end.

Definition __unguarded_linear_insert (last : nat) (a : list T)
    : option (list T) :=
  val ← a !! last; linear_insert_loop val last a.

(** One turn of the loop of [__insertion_sort], at iterator [i]. *)
Definition insertion_sort_step (first : nat) (acc : option (list T)) (i : nat)
    : option (list T) :=
  a ← acc; x ← a !! i; f ← a !! first;
  if comp x f then
    (* __val = *__i; move_backward(__first, __i, __i + 1); *__first = __val *)
    Some (take first a ++ x :: take (i - first) (drop first a) ++ drop (S i) a)
  else __unguarded_linear_insert i a.

Definition __insertion_sort (first last : nat) (a : list T) : option (list T) :=
  if decide (first = last) then Some a
  else foldl (insertion_sort_step first) (Some a) (seq (S first) (last - S first)).

Definition __unguarded_insertion_sort (first last : nat) (a : list T)
    : option (list T) :=
  foldl (λ acc i, a' ← acc; __unguarded_linear_insert i a') (Some a)
    (seq first (last - first)).

Definition _S_threshold : nat := 16.

Definition __final_insertion_sort (first last : nat) (a : list T)
    : option (list T) :=
  if decide (_S_threshold < last - first) then
    a' ← __insertion_sort first (first + _S_threshold) a;
    __unguarded_insertion_sort (first + _S_threshold) last a'
  else __insertion_sort first last a.

(** [while (__comp(__first, __pivot)) ++__first;] with fuel for as many turns
    as the array has elements: [__first] leaves the array before the fuel
    ends. *)
Fixpoint scan_up (fuel pivot first : nat) (a : list T) : option nat :=
  match fuel with
  | O => None
  | S fuel' =>
    x ← a !! first; p ← a !! pivot;
    if comp x p then scan_up fuel' pivot (S first) a else Some first
  end.

(** [while (__comp(__pivot, __last)) --__last;] *)
Fixpoint scan_down (pivot last : nat) (a : list T) : option nat :=
  match a !! last, a !! pivot with
  | Some x, Some p =>
    if comp p x then
      match last with
      | O => None
      | S last' => scan_down pivot last' a
      end
    else Some last
  | _, _ => None
  end.

(** The outer loop of [__unguarded_partition]; every turn advances
    [__first], so [length a] turns are more than the loop can take. *)
Fixpoint unguarded_partition_loop (fuel first last pivot : nat) (a : list T)
    : option (nat * list T) :=
  match fuel with
  | O => None
  | S fuel' =>
    first1 ← scan_up (S (length a)) pivot first a;
    last0 ← (match last with O => None | S l => Some l end);
    last1 ← scan_down pivot last0 a;
    if decide (first1 < last1) then
      a' ← iter_swap first1 last1 a;
      unguarded_partition_loop fuel' (S first1) last1 pivot a'
    else Some (first1, a)
  end.

Definition __unguarded_partition (first last pivot : nat) (a : list T)
    : option (nat * list T) :=
  unguarded_partition_loop (S (length a)) first last pivot a.

Definition __unguarded_partition_pivot (first last : nat) (a : list T)
    : option (nat * list T) :=
  let mid := first + (last - first) / 2 in
  a' ← __move_median_to_first first (first + 1) mid (last - 1) a;
  __unguarded_partition (first + 1) last first a'.

(** *** Heap sort (bits/stl_heap.h), the fall-back of [__introsort_loop] *)

(** The loop of [__push_heap]; [__comp(__first + __parent, __value)]
    compares the element there with the value. *)
Fixpoint push_heap_loop (fuel first holeIndex topIndex : nat) (value : T)
    (a : list T) : option (list T) :=
  let parent := (holeIndex - 1) / 2 in
  if decide (topIndex < holeIndex) then
    p ← a !! (first + parent);
    if comp p value then
      match fuel with
      | O => None
      | S fuel' =>
        a' ← put (first + holeIndex) p a;
        push_heap_loop fuel' first parent topIndex value a'
      end
    else put (first + holeIndex) value a
  else put (first + holeIndex) value a.

(** [__holeIndex] goes down at every turn, so it is fuel enough. *)
Definition __push_heap (first holeIndex topIndex : nat) (value : T)
    (a : list T) : option (list T) :=
  push_heap_loop holeIndex first holeIndex topIndex value a.

(** The [while] loop of [__adjust_heap]; it returns [__holeIndex],
    [__secondChild] and the array.  [__secondChild] grows at every turn and
    stays below [__len], so [__len] is fuel enough. *)
Fixpoint adjust_heap_loop (fuel first holeIndex secondChild len : nat)
    (a : list T) : option (nat * nat * list T) :=
  if decide (secondChild < (len - 1) / 2) then
    match fuel with
    | O => None
    | S fuel' =>
      let child := 2 * (secondChild + 1) in
      x ← a !! (first + child); y ← a !! (first + (child - 1));
      let child' := if comp x y then child - 1 else child in
      z ← a !! (first + child');
      a' ← put (first + holeIndex) z a;
      adjust_heap_loop fuel' first child' child' len a'
    end
  else Some (holeIndex, secondChild, a).

(** [(__len - 2) / 2] is computed in [Z], where it is -1 for an empty
    range. *)
Definition __adjust_heap (first holeIndex len : nat) (value : T) (a : list T)
    : option (list T) :=
  let topIndex := holeIndex in
  '(holeIndex1, secondChild, a1) ←
    adjust_heap_loop len first holeIndex holeIndex len a;
  if decide (Nat.even len = true ∧
             Z.of_nat secondChild = ((Z.of_nat len - 2) `quot` 2)%Z) then
    let child := 2 * (secondChild + 1) in
    z ← a1 !! (first + (child - 1));
    a2 ← put (first + holeIndex1) z a1;
    __push_heap first (child - 1) topIndex value a2
  else __push_heap first holeIndex1 topIndex value a1.

Definition __pop_heap (first last result : nat) (a : list T)
    : option (list T) :=
  value ← a !! result; x ← a !! first;
  a' ← put result x a;
  __adjust_heap first 0 (last - first) value a'.

(** The loop of [__make_heap], from [__parent] down to 0. *)
Fixpoint make_heap_loop (first len parent : nat) (a : list T)
    : option (list T) :=
  match a !! (first + parent) with
  | None => None
  | Some value =>
    match __adjust_heap first parent len value a with
    | None => None
    | Some a' =>
      match parent with
      | O => Some a'
      | S parent' => make_heap_loop first len parent' a'
      end
    end
  end.

Definition __make_heap (first last : nat) (a : list T) : option (list T) :=
  if decide (last - first < 2) then Some a
  else make_heap_loop first (last - first) ((last - first - 2) / 2) a.

(** The loop of [__sort_heap], on [n = __last - __first]. *)
Fixpoint sort_heap_loop (n first : nat) (a : list T) : option (list T) :=
  match n with
  | S (S _ as n') =>
    a' ← __pop_heap first (first + n') (first + n') a;
    sort_heap_loop n' first a'
  | _ => Some a
  end.

Definition __sort_heap (first last : nat) (a : list T) : option (list T) :=
  sort_heap_loop (last - first) first a.

Definition __heap_select (first middle last : nat) (a : list T)
    : option (list T) :=
  a' ← __make_heap first middle a;
  foldl (λ acc i,
           a'' ← acc; x ← a'' !! i; f ← a'' !! first;
           if comp x f then __pop_heap first middle i a'' else Some a'')
    (Some a') (seq middle (last - middle)).

Definition __partial_sort (first middle last : nat) (a : list T)
    : option (list T) :=
  a' ← __heap_select first middle last a;
  __sort_heap first middle a'.

(** The [while] loop goes round with [__last = __cut] and the decremented
    [__depth_limit], which is the second recursive call here. *)
Fixpoint __introsort_loop (depth_limit first last : nat) (a : list T)
    : option (list T) :=
  if decide (_S_threshold < last - first) then
    match depth_limit with
    | O => __partial_sort first last last a
    | S depth_limit' =>
      '(cut, a1) ← __unguarded_partition_pivot first last a;
      a2 ← __introsort_loop depth_limit' cut last a1;
      __introsort_loop depth_limit' first cut a2
    end
  else Some a.

(** [std::__lg(n)] for [n > 0] *)
Definition __lg (n : nat) : nat := Nat.log2 n.

Definition __sort (first last : nat) (a : list T) : option (list T) :=
  if decide (first = last) then Some a
  else
    a' ← __introsort_loop (__lg (last - first) * 2) first last a;
    __final_insertion_sort first last a'.

(** [std::sort(v.begin(), v.end())] *)
Definition sort (v : list T) : option (list T) := __sort 0 (length v) v.

End sort.
End libstdcxx.

(** ** GameSubtitleSceneInfo *)

Inductive SubtitleSceneKind : Type :=
  | Invalid
  | Movie
  | Hint
  | HintNamed.

#[global] Instance SubtitleSceneKind_eq_dec : EqDecision SubtitleSceneKind.
Proof. solve_decision. Defined.

(** The enumerators' values. *)
Definition SubtitleSceneKind_value (k : SubtitleSceneKind) : Z :=
  match k with
  | Invalid => -1
  | Movie => 0
  | Hint => 1
  | HintNamed => 2
  end.

(** [GameSubtitleSceneInfo::SubtitleLine] *)
Module SubtitleLine.

Record t : Type := mk {
  frame : Z;
  line : string;
  speaker : string;
  offscreen : bool
}.

#[global] Instance eq_dec : EqDecision t.
Proof. solve_decision. Defined.

(** [operator<] *)
Definition lt (a other : t) : bool := bool_decide (frame a < frame other)%Z.

End SubtitleLine.

Module GameSubtitleSceneInfo.

Record t : Type := mk {
  m_name : string;
  m_id : Z;
  m_lines : list SubtitleLine.t;
  m_kind : SubtitleSceneKind;
  m_sorting_group : string;
  m_sorting_group_idx : Z
}.

(** [GameSubtitleSceneInfo(SubtitleSceneKind kind)]; the strings and the
    vector are default-constructed. *)
Definition new (kind : SubtitleSceneKind) : t :=
  {| m_name := ""; m_id := 0; m_lines := []; m_kind := kind;
     m_sorting_group := ""; m_sorting_group_idx := -1 |}.

Definition name (s : t) : string := m_name s.
Definition lines (s : t) : list SubtitleLine.t := m_lines s.
Definition id (s : t) : Z := m_id s.
Definition kind (s : t) : SubtitleSceneKind := m_kind s.

Definition with_lines (ls : list SubtitleLine.t) (s : t) : t :=
  {| m_name := m_name s; m_id := m_id s; m_lines := ls; m_kind := m_kind s;
     m_sorting_group := m_sorting_group s;
     m_sorting_group_idx := m_sorting_group_idx s |}.

Definition clear_lines (s : t) : t := with_lines [] s.

Definition set_name (new_name : string) (s : t) : t :=
  {| m_name := new_name; m_id := m_id s; m_lines := m_lines s;
     m_kind := m_kind s; m_sorting_group := m_sorting_group s;
     m_sorting_group_idx := m_sorting_group_idx s |}.

Definition set_id (new_id : Z) (s : t) : t :=
  {| m_name := m_name s; m_id := new_id; m_lines := m_lines s;
     m_kind := m_kind s; m_sorting_group := m_sorting_group s;
     m_sorting_group_idx := m_sorting_group_idx s |}.

(** [this->from_other_scene(scene)]; the result is [this] afterwards. *)
Definition from_other_scene (scene : t) (this : t) : t :=
  {| m_name := name scene; m_id := id scene; m_lines := lines scene;
     m_kind := kind scene; m_sorting_group := m_sorting_group this;
     m_sorting_group_idx := m_sorting_group_idx this |}.

Section with_std_sort.

(** [std::sort(first, last)] over a whole vector of lines, comparing with
    [SubtitleLine::operator<].  The standard library supplies it; the code
    below is written against whichever one that is. *)
Variable std_sort : list SubtitleLine.t → list SubtitleLine.t.

Definition add_line (frame : Z) (line speaker : string) (offscreen : bool)
    (s : t) : t :=
  with_lines
    (std_sort (m_lines s ++ [SubtitleLine.mk frame line speaker offscreen]))
    s.

Definition add_clear_entry (frame : Z) (s : t) : t :=
  with_lines (std_sort (m_lines s ++ [SubtitleLine.mk frame "" "" false])) s.

End with_std_sort.

End GameSubtitleSceneInfo.

(** ** GameSubtitleBank *)

Module GameSubtitleBank.

Record t : Type := mk {
  m_lang_id : Z;
  m_text_version : string;
  m_file_path : string;
  m_scenes : gmap string GameSubtitleSceneInfo.t
}.

(** [GameSubtitleBank(int lang_id)] *)
Definition new (lang_id : Z) : t := mk lang_id "" "" ∅.

Definition lang (b : t) : Z := m_lang_id b.
Definition scenes (b : t) : gmap string GameSubtitleSceneInfo.t := m_scenes b.

Definition scene_exists (name : string) (b : t) : bool :=
  map_contains (m_scenes b) name.

(** The C++ function returns a reference into the map; the model returns the
    scene found there. *)
Definition scene_by_name (name : string) (b : t)
    : result GameSubtitleSceneInfo.t :=
  map_at (m_scenes b) name.

Definition add_scene (scene : GameSubtitleSceneInfo.t) (b : t)
    : outcome t unit :=
  match ASSERT (negb (scene_exists (GameSubtitleSceneInfo.name scene) b)) with
  | Err e => Fails e b
  | Ok _ =>
    Returns tt
      (mk (m_lang_id b) (m_text_version b) (m_file_path b)
          (map_insert_new (GameSubtitleSceneInfo.name scene) scene
             (m_scenes b)))
  end.

End GameSubtitleBank.

(** ** GameSubtitleGroups *)

Module GameSubtitleGroups.

Record t : Type := mk {
  m_group_order : list string;
  m_groups : gmap string (list string);
  group_order_key : string;
  uncategorized_group : string
}.

(** A default-constructed object, with the in-class initialisers. *)
Definition new : t := mk [] ∅ "_groups" "uncategorized".

Definition with_groups (order : list string) (groups : gmap string (list string))
    (g : t) : t :=
  mk order groups (group_order_key g) (uncategorized_group g).

(** The scenes of a group; a group that is not a key has none. *)
Definition scenes_of (group_name : string) (g : t) : list string :=
  default [] (m_groups g !! group_name).

(** Modelled from the spec: the body of [find_group], which the header only
    declares.  It returns the name of a group whose list contains
    [scene_name], and the fallback name [uncategorized_group] when no list
    does.  The groups are visited in the order of [map_to_list]; which group
    is reported matters only when a scene is listed in several groups. *)
Definition find_group (scene_name : string) (g : t) : string :=
  match list_find (λ kv : string * list string, scene_name ∈ kv.2)
          (map_to_list (m_groups g)) with
  | Some (_, (group, _)) => group
  | None => uncategorized_group g
  end.

(** Modelled from the spec: the body of [remove_scene], which the header only
    declares.  It removes [scene_name] from the list of [group_name]; when
    the group does not exist nothing changes. *)
Definition remove_scene (group_name scene_name : string) (g : t) : t :=
  match m_groups g !! group_name with
  | None => g
  | Some scenes =>
    with_groups (m_group_order g)
      (<[group_name := filter (λ s, s ≠ scene_name) scenes]> (m_groups g)) g
  end.

(** Modelled from the spec: the body of [add_scene], which the header only
    declares.  It appends [group_name] to [m_group_order] when it is not
    there yet, and appends [scene_name] to the list of [group_name] when it
    is not there yet. *)
Definition add_scene (group_name scene_name : string) (g : t) : t :=
  let order :=
    if decide (group_name ∈ m_group_order g) then m_group_order g
    else m_group_order g ++ [group_name] in
  let scenes := scenes_of group_name g in
  let scenes' :=
    if decide (scene_name ∈ scenes) then scenes
    else scenes ++ [scene_name] in
  with_groups order (<[group_name := scenes']> (m_groups g)) g.

End GameSubtitleGroups.

(** ** GameSubtitleDB *)

Module GameSubtitleDB.

(** [m_subtitle_groups] is a [unique_ptr]: [None] when it is null. *)
Record t : Type := mk {
  m_banks : gmap Z addr;
  m_subtitle_groups : option GameSubtitleGroups.t
}.

Definition empty : t := mk ∅ None.

Definition banks (db : t) : gmap Z addr := m_banks db.

Definition bank_exists (id : Z) (db : t) : bool := map_contains (m_banks db) id.

Definition add_bank (heap : gmap addr GameSubtitleBank.t) (bank : addr)
    (db : t) : outcome t addr :=
  match heap !! bank with
  | None => Fails invalid_pointer db
  | Some b =>
    match ASSERT (negb (bank_exists (GameSubtitleBank.lang b) db)) with
    | Err e => Fails e db
    | Ok _ =>
      Returns bank
        (mk (<[GameSubtitleBank.lang b := bank]> (m_banks db))
            (m_subtitle_groups db))
    end
  end.

Definition bank_by_id (id : Z) (db : t) : result (option addr) :=
  if negb (bank_exists id db) then Ok None
  else
    bank ← map_at (m_banks db) id;
    Ok (Some bank).

End GameSubtitleDB.

(** ** Vocabulary of the properties *)

(** A call that adds to the lines of a scene. *)
Inductive scene_call : Type :=
  | call_add_line (frame : Z) (line speaker : string) (offscreen : bool)
  | call_add_clear_entry (frame : Z).

(** The line a call appends before it sorts. *)
Definition inserted (c : scene_call) : SubtitleLine.t :=
  match c with
  | call_add_line frame line speaker offscreen =>
    SubtitleLine.mk frame line speaker offscreen
  | call_add_clear_entry frame => SubtitleLine.mk frame "" "" false
  end.

Definition perform (std_sort : list SubtitleLine.t → list SubtitleLine.t)
    (s : GameSubtitleSceneInfo.t) (c : scene_call) : GameSubtitleSceneInfo.t :=
  match c with
  | call_add_line frame line speaker offscreen =>
    GameSubtitleSceneInfo.add_line std_sort frame line speaker offscreen s
  | call_add_clear_entry frame =>
    GameSubtitleSceneInfo.add_clear_entry std_sort frame s
  end.

(** The calls of [cs], first to last, on the scene [s]. *)
Definition perform_all (std_sort : list SubtitleLine.t → list SubtitleLine.t)
    (cs : list scene_call) (s : GameSubtitleSceneInfo.t)
    : GameSubtitleSceneInfo.t :=
  foldl (perform std_sort) s cs.

(** What the C++ standard promises of [std::sort] with [operator<]: no element
    compares less than one that comes before it. *)
Definition ascending (l : list SubtitleLine.t) : Prop :=
  ∀ i j a b, (i < j)%nat → l !! i = Some a → l !! j = Some b →
    SubtitleLine.lt b a = false.

(** The whole promise: the output rearranges the input and is ascending.
    Nothing is promised about the order of elements neither of which is less
    than the other. *)
Record std_sort_contract (std_sort : list SubtitleLine.t → list SubtitleLine.t)
    : Prop := {
  sort_permutes : ∀ l, std_sort l ≡ₚ l;
  sort_ascending : ∀ l, ascending (std_sort l)
}.

Definition nondecreasing_in_frame (l : list SubtitleLine.t) : Prop :=
  ∀ i j a b, (i < j)%nat → l !! i = Some a → l !! j = Some b →
    (SubtitleLine.frame a ≤ SubtitleLine.frame b)%Z.

Definition at_frame (f : Z) (l : list SubtitleLine.t) : list SubtitleLine.t :=
  filter (λ x, SubtitleLine.frame x = f) l.

(** The lines of every frame are in [result] in the order they have in
    [insertions]. *)
Definition keeps_insertion_order (insertions result : list SubtitleLine.t)
    : Prop :=
  ∀ f, at_frame f result = at_frame f insertions.

(** Sorted by frame, ties in insertion order, whatever calls are made on a new
    scene. *)
Definition stable_by_frame (std_sort : list SubtitleLine.t → list SubtitleLine.t)
    : Prop :=
  ∀ kind cs,
    let s := perform_all std_sort cs (GameSubtitleSceneInfo.new kind) in
    nondecreasing_in_frame (GameSubtitleSceneInfo.lines s) ∧
    keeps_insertion_order (inserted <$> cs) (GameSubtitleSceneInfo.lines s).

Definition le_frame (a b : SubtitleLine.t) : Prop :=
  (SubtitleLine.frame a ≤ SubtitleLine.frame b)%Z.

#[global] Instance le_frame_dec a b : Decision (le_frame a b).
Proof. unfold le_frame. apply _. Defined.

(** Two sorting functions that keep the promise of [std::sort]: a merge sort,
    and the same after reversing the input. *)
Definition merge_sort_lines (l : list SubtitleLine.t) : list SubtitleLine.t :=
  merge_sort le_frame l.

Definition reversing_sort_lines (l : list SubtitleLine.t) : list SubtitleLine.t :=
  merge_sort le_frame (reverse l).

(** [std_sort] is the function libstdc++ computes, wherever the model of
    libstdc++ gives a result. *)
Definition agrees_with_libstdcxx
    (std_sort : list SubtitleLine.t → list SubtitleLine.t) : Prop :=
  ∀ l r, libstdcxx.sort SubtitleLine.lt l = Some r → std_sort l = r.

Definition libstdcxx_sort_lines (l : list SubtitleLine.t) : list SubtitleLine.t :=
  default l (libstdcxx.sort SubtitleLine.lt l).

(** Seventeen calls of [add_line], all at frame 0, with the texts
    "01" to "17". *)
Definition seventeen_texts : list string :=
  ["01"; "02"; "03"; "04"; "05"; "06"; "07"; "08"; "09"; "10"; "11"; "12";
   "13"; "14"; "15"; "16"; "17"].

Definition seventeen_calls : list scene_call :=
  (λ text, call_add_line 0 text "" false) <$> seventeen_texts.

(** How many times a scene is in a list of scenes. *)
Definition occurrences (scene_name : string) (scenes : list string) : nat :=
  length (filter (λ s, s = scene_name) scenes).

(** A scene is at most once in the list of a group. *)
Definition listed_at_most_once (group_name scene_name : string)
    (g : GameSubtitleGroups.t) : Prop :=
  (occurrences scene_name (GameSubtitleGroups.scenes_of group_name g) ≤ 1)%nat.

(** Two calls of [add_scene(g, s)] in a row leave [s] exactly once in the
    list of [g], whatever the groups were. *)
Definition listed_once_after_two_calls : Prop :=
  ∀ group_name scene_name g,
    occurrences scene_name
      (GameSubtitleGroups.scenes_of group_name
         (GameSubtitleGroups.add_scene group_name scene_name
            (GameSubtitleGroups.add_scene group_name scene_name g))) = 1%nat.

(** A call that edits the groups. *)
Inductive group_call : Type :=
  | call_add_scene (group_name scene_name : string)
  | call_remove_scene (group_name scene_name : string).

Definition edit (g : GameSubtitleGroups.t) (c : group_call)
    : GameSubtitleGroups.t :=
  match c with
  | call_add_scene group_name scene_name =>
    GameSubtitleGroups.add_scene group_name scene_name g
  | call_remove_scene group_name scene_name =>
    GameSubtitleGroups.remove_scene group_name scene_name g
  end.

(** No list of scenes has a scene twice. *)
Definition lists_without_repeats (g : GameSubtitleGroups.t) : Prop :=
  ∀ group_name, NoDup (GameSubtitleGroups.scenes_of group_name g).

(** A scene is in no group. *)
Definition in_no_group (scene_name : string) (g : GameSubtitleGroups.t) : Prop :=
  ∀ group_name scenes,
    GameSubtitleGroups.m_groups g !! group_name = Some scenes →
    scene_name ∉ scenes.

(** ** Sequences of calls *)

(** [set_line] for every pair of [writes], first to last. *)
Definition set_lines (writes : list (Z * string)) (b : GameTextBank.t)
    : GameTextBank.t :=
  foldl (λ b w, GameTextBank.set_line w.1 w.2 b) b writes.

(** A call of [GameTextDB::add_bank]: the heap at the time of the call, the
    group and the pointer. *)
Record text_add_bank_call : Type := mk_text_add_bank_call {
  call_heap : gmap addr GameTextBank.t;
  call_group : string;
  call_bank : addr
}.

(** The calls of [calls], first to last, on the database [db]; a call that
    fails leaves the database as it was. *)
Definition text_add_banks (calls : list text_add_bank_call) (db : GameTextDB.t)
    : GameTextDB.t :=
  foldl (λ db c,
           state_of (GameTextDB.add_bank (call_heap c) (call_group c)
                       (call_bank c) db))
    db calls.

(** Every bank of [heap] is in [heap'] at the same address, with the language
    it has in [heap].  [GameTextBank] has no way to change its language, so
    this holds between a heap and every later one. *)
Definition keeps_langs (heap heap' : gmap addr GameTextBank.t) : Prop :=
  ∀ p b, heap !! p = Some b →
    ∃ b', heap' !! p = Some b' ∧ GameTextBank.lang b' = GameTextBank.lang b.

(** [add_scene] for every scene of [scenes], first to last; a call that fails
    leaves the bank as it was. *)
Definition add_scenes (scenes : list GameSubtitleSceneInfo.t)
    (b : GameSubtitleBank.t) : GameSubtitleBank.t :=
  foldl (λ b scene, state_of (GameSubtitleBank.add_scene scene b)) b scenes.

(** ** Sample data *)

(** A bank with language 0 at address 1, and a second one at address 2. *)
Definition two_text_banks : gmap addr GameTextBank.t :=
  {[ 1%positive := GameTextBank.new 0; 2%positive := GameTextBank.new 0 ]}.

(** Two subtitle banks with language 0, at addresses 1 and 2. *)
Definition two_subtitle_banks : gmap addr GameSubtitleBank.t :=
  {[ 1%positive := GameSubtitleBank.new 0; 2%positive := GameSubtitleBank.new 0 ]}.

(** Two scenes with the name "intro" and different content. *)
Definition intro_scene : GameSubtitleSceneInfo.t :=
  GameSubtitleSceneInfo.set_name "intro" (GameSubtitleSceneInfo.new Movie).

Definition other_intro_scene : GameSubtitleSceneInfo.t :=
  GameSubtitleSceneInfo.set_id 7
    (GameSubtitleSceneInfo.set_name "intro" (GameSubtitleSceneInfo.new Hint)).

(** Calls of both kinds, with two lines at frame 20. *)
Definition mixed_calls : list scene_call :=
  [ call_add_line 30 "a" "jak" false; call_add_clear_entry 20;
    call_add_line 10 "b" "keira" true; call_add_line 20 "c" "" false ].

(** Groups as they are after reading a file with one group of hints. *)
Definition hint_groups : GameSubtitleGroups.t :=
  GameSubtitleGroups.mk ["_groups"; "hints"]
    {[ "hints" := ["sidekick-hint"; "sage-hint"] ]} "_groups" "uncategorized".

(** The heap of [two_text_banks] after line 5 of the first bank is set. *)
Definition two_text_banks_later : gmap addr GameTextBank.t :=
  alter (GameTextBank.set_line 5 "Hello") 1%positive two_text_banks.

(** Three calls of [add_bank]; the second one fails. *)
Definition three_text_calls : list text_add_bank_call :=
  [ mk_text_add_bank_call two_text_banks "main" 1%positive;
    mk_text_add_bank_call two_text_banks_later "main" 2%positive;
    mk_text_add_bank_call two_text_banks_later "credits" 2%positive ].

(** A scene whose lines were put in by hand, out of order. *)
Definition unsorted_scene : GameSubtitleSceneInfo.t :=
  GameSubtitleSceneInfo.with_lines
    [ SubtitleLine.mk 30 "a" "jak" false; SubtitleLine.mk 10 "b" "keira" true ]
    intro_scene.

(** Three calls at three frames, and the same calls in another order. *)
Definition three_calls : list scene_call :=
  [ call_add_line 30 "a" "jak" false; call_add_clear_entry 20;
    call_add_line 10 "b" "keira" true ].

Definition three_calls_reordered : list scene_call :=
  [ call_add_clear_entry 20; call_add_line 10 "b" "keira" true;
    call_add_line 30 "a" "jak" false ].

(** Groups as they are after reading a file that lists "intro" twice under
    "movies". *)
Definition repeated_groups : GameSubtitleGroups.t :=
  GameSubtitleGroups.mk ["_groups"; "movies"]
    {[ "movies" := ["intro"; "intro"] ]} "_groups" "uncategorized".

(** * Properties *)

(** ** Maps *)

Section map_facts.

Context `{Countable K} {V : Type}.
Implicit Types (m : gmap K V) (k : K) (v : V).

Lemma map_contains_true m k : map_contains m k = true ↔ is_Some (m !! k).
Proof.
  unfold map_contains. destruct (m !! k) as [v|]; split; intros Hk.
  - by exists v.
  - done.
  - done.
  - by destruct Hk.
Qed.

Lemma map_contains_false m k : map_contains m k = false ↔ m !! k = None.
Proof. unfold map_contains. by destruct (m !! k). Qed.

Lemma map_at_Ok m k v : map_at m k = Ok v ↔ m !! k = Some v.
Proof.
  unfold map_at. destruct (m !! k); split; intros Hk; by simplify_eq.
Qed.

Lemma map_at_Err m k e : map_at m k = Err e ↔ m !! k = None ∧ e = out_of_range.
Proof.
  unfold map_at. destruct (m !! k); split; intros Hk.
  - done.
  - by destruct Hk.
  - by simplify_eq.
  - destruct Hk as [_ ->]. done.
Qed.

Lemma map_insert_new_lookup k v m :
  is_Some (map_insert_new k v m !! k).
Proof.
  unfold map_insert_new. destruct (m !! k) as [w|] eqn:Hk.
  - by rewrite Hk.
  - rewrite lookup_insert_eq. by eexists.
Qed.

End map_facts.

(** ** GameTextBank *)

Lemma set_line_lookup (b : GameTextBank.t) (id id' : Z) (text : string) :
  GameTextBank.lines (GameTextBank.set_line id text b) !! id' =
    if decide (id = id') then Some text else GameTextBank.lines b !! id'.
Proof. unfold GameTextBank.lines. simpl. apply lookup_insert. Qed.

Lemma set_line_lang (b : GameTextBank.t) (id : Z) (text : string) :
  GameTextBank.lang (GameTextBank.set_line id text b) = GameTextBank.lang b.
Proof. reflexivity. Qed.

Lemma set_line_twice (b : GameTextBank.t) (id : Z) (t1 t2 : string) :
  GameTextBank.set_line id t2 (GameTextBank.set_line id t1 b) =
    GameTextBank.set_line id t2 b.
Proof. unfold GameTextBank.set_line. simpl. by rewrite insert_insert_eq. Qed.

(** C5. [set_line] is a total function of the bank, and after
    [set_line(id, t1)] and then [set_line(id, t2)] the line [id] exists and
    reads [t2]: the second call overwrites the first, and the bank is the one
    a single [set_line(id, t2)] gives. *)
Theorem set_line_upsert (b : GameTextBank.t) (id : Z) (t1 t2 : string) :
  let b' := GameTextBank.set_line id t2 (GameTextBank.set_line id t1 b) in
  GameTextBank.line_exists id b' = true ∧
  GameTextBank.line id b' = Ok t2 ∧
  b' = GameTextBank.set_line id t2 b.
Proof.
  intros b'. subst b'. rewrite set_line_twice. split_and!.
  - apply map_contains_true. simpl. rewrite lookup_insert_eq. by eexists.
  - apply map_at_Ok. simpl. apply lookup_insert_eq.
  - done.
Qed.

(** ** GameTextDB *)

Lemma text_bank_exists_spec (group : string) (id : Z) (db : GameTextDB.t) :
  GameTextDB.bank_exists group id db = true ↔
  ∃ inner, GameTextDB.m_banks db !! group = Some inner ∧ is_Some (inner !! id).
Proof.
  unfold GameTextDB.bank_exists, map_contains.
  destruct (GameTextDB.m_banks db !! group) as [inner|]; simpl.
  - destruct (inner !! id) as [p|] eqn:Hp; split.
    + intros _. exists inner. split; [done|]. by exists p.
    + done.
    + done.
    + intros (inner' & ? & Hin). simplify_eq. rewrite Hp in Hin. by destruct Hin.
  - split; [done|]. by intros (? & ? & ?).
Qed.

Lemma text_bank_exists_false (group : string) (id : Z) (db : GameTextDB.t) :
  GameTextDB.bank_exists group id db = false ↔
  GameTextDB.m_banks db !! group ≫= (.!! id) = None.
Proof.
  unfold GameTextDB.bank_exists, map_contains.
  destruct (GameTextDB.m_banks db !! group) as [inner|]; simpl; [|done].
  by destruct (inner !! id).
Qed.

(** [bank_by_id] returns, whatever it is asked. *)
Lemma text_bank_by_id_returns (group : string) (id : Z) (db : GameTextDB.t) :
  GameTextDB.bank_by_id group id db =
    Ok (GameTextDB.m_banks db !! group ≫= (.!! id)).
Proof.
  unfold GameTextDB.bank_by_id.
  destruct (GameTextDB.bank_exists group id db) eqn:Hex; simpl.
  - apply text_bank_exists_spec in Hex as (inner & Hg & [p Hp]).
    unfold map_at. rewrite Hg. simpl. by rewrite Hp.
  - apply text_bank_exists_false in Hex. by rewrite Hex.
Qed.

Lemma store_lookup (group group' : string) (lang id : Z) (bank : addr)
    (db : GameTextDB.t) :
  GameTextDB.m_banks (GameTextDB.store group lang bank db) !! group' ≫= (.!! id) =
    if decide (group = group' ∧ lang = id) then Some bank
    else GameTextDB.m_banks db !! group' ≫= (.!! id).
Proof.
  unfold GameTextDB.store. simpl.
  destruct (decide (group = group')) as [<-|Hg].
  - rewrite lookup_insert_eq. simpl. rewrite lookup_insert.
    destruct (decide (lang = id)) as [<-|Hl].
    + by rewrite decide_True.
    + rewrite decide_False by (intros [??]; congruence).
      by destruct (GameTextDB.m_banks db !! group).
  - rewrite lookup_insert_ne by done. by rewrite decide_False by (intros [??]; congruence).
Qed.

Lemma text_add_bank_fresh (heap : gmap addr GameTextBank.t) (group : string)
    (bank : addr) (b : GameTextBank.t) (db : GameTextDB.t) :
  heap !! bank = Some b →
  GameTextDB.bank_exists group (GameTextBank.lang b) db = false →
  GameTextDB.add_bank heap group bank db =
    Returns bank (GameTextDB.store group (GameTextBank.lang b) bank db).
Proof. intros Hb Hex. unfold GameTextDB.add_bank. by rewrite Hb, Hex. Qed.

Lemma text_add_bank_taken (heap : gmap addr GameTextBank.t) (group : string)
    (bank : addr) (b : GameTextBank.t) (db : GameTextDB.t) :
  heap !! bank = Some b →
  GameTextDB.bank_exists group (GameTextBank.lang b) db = true →
  GameTextDB.add_bank heap group bank db = Fails DuplicateKey db.
Proof. intros Hb Hex. unfold GameTextDB.add_bank. by rewrite Hb, Hex. Qed.

(** After a call of [add_bank] on a valid pointer, failed or not, the key of
    the bank is taken. *)
Lemma text_add_bank_key_taken (heap : gmap addr GameTextBank.t) (group : string)
    (bank : addr) (b : GameTextBank.t) (db : GameTextDB.t) :
  heap !! bank = Some b →
  GameTextDB.bank_exists group (GameTextBank.lang b)
    (state_of (GameTextDB.add_bank heap group bank db)) = true.
Proof.
  intros Hb.
  destruct (GameTextDB.bank_exists group (GameTextBank.lang b) db) eqn:Hex.
  - by rewrite (text_add_bank_taken _ _ _ b).
  - rewrite (text_add_bank_fresh _ _ _ b) by done. simpl.
    apply not_false_iff_true. rewrite text_bank_exists_false, store_lookup.
    by rewrite decide_True.
Qed.

(** C4. When no bank is stored for the group and the language of the bank,
    [add_bank] returns the pointer it was given and stores it; [bank_by_id]
    then finds that pointer under the group and the language, and still finds
    nothing under any other language of the group that had no bank before. *)
Theorem text_add_bank_then_lookup (heap : gmap addr GameTextBank.t)
    (group : string) (bank : addr) (b : GameTextBank.t) (db : GameTextDB.t) :
  heap !! bank = Some b →
  GameTextDB.bank_exists group (GameTextBank.lang b) db = false →
  ∃ db',
    GameTextDB.add_bank heap group bank db = Returns bank db' ∧
    GameTextDB.bank_by_id group (GameTextBank.lang b) db' = Ok (Some bank) ∧
    ∀ id, id ≠ GameTextBank.lang b →
      GameTextDB.bank_exists group id db = false →
      GameTextDB.bank_by_id group id db' = Ok None.
Proof.
  intros Hb Hex. eexists. split; [by apply text_add_bank_fresh|]. split.
  - rewrite text_bank_by_id_returns, store_lookup. by rewrite decide_True.
  - intros id Hid Hid'. rewrite text_bank_by_id_returns, store_lookup.
    rewrite decide_False by (intros [??]; congruence).
    by apply text_bank_exists_false in Hid' as ->.
Qed.

Lemma text_add_bank_then_lookup_witness :
  ∃ db',
    GameTextDB.add_bank two_text_banks "main" 1%positive GameTextDB.empty =
      Returns 1%positive db' ∧
    GameTextDB.bank_by_id "main" 0 db' = Ok (Some 1%positive) ∧
    ∀ id, id ≠ 0%Z →
      GameTextDB.bank_exists "main" id GameTextDB.empty = false →
      GameTextDB.bank_by_id "main" id db' = Ok None.
Proof.
  apply (text_add_bank_then_lookup two_text_banks "main" 1%positive
           (GameTextBank.new 0) GameTextDB.empty); reflexivity.
Defined.

(** A group that is not a key of the database: [banks] throws, the probe and
    the optional lookup do not. *)
Lemma text_banks_of_known_group (group : string) (id : Z) (db : GameTextDB.t) :
  GameTextDB.bank_exists group id db = true →
  ∃ inner, GameTextDB.banks group db = Ok inner ∧ is_Some (inner !! id).
Proof.
  intros (inner & Hg & Hid)%text_bank_exists_spec. exists inner.
  split; [|done]. by apply map_at_Ok.
Qed.

Lemma text_banks_of_listed_group (group : string) (db : GameTextDB.t) :
  group ∈ dom (GameTextDB.groups db) →
  ∃ inner, GameTextDB.banks group db = Ok inner.
Proof.
  intros [inner Hg]%elem_of_dom. exists inner. by apply map_at_Ok.
Qed.

(** C10. For a group that is not a key of the database, [banks(group)] throws
    [std::out_of_range] (NotFound), while [bank_exists] answers false and
    [bank_by_id] returns the null pointer for every language, and the group is
    not among the keys of [groups()]. *)
Theorem text_banks_of_unknown_group (group : string) (db : GameTextDB.t) :
  GameTextDB.m_banks db !! group = None →
  GameTextDB.banks group db = Err NotFound ∧
  (group ∉ dom (GameTextDB.groups db)) ∧
  (∀ id, GameTextDB.bank_exists group id db = false) ∧
  (∀ id, GameTextDB.bank_by_id group id db = Ok None).
Proof.
  intros Hg. split_and!.
  - by apply map_at_Err.
  - by apply not_elem_of_dom.
  - intros id. apply text_bank_exists_false. by rewrite Hg.
  - intros id. rewrite text_bank_by_id_returns. by rewrite Hg.
Qed.

Lemma text_banks_of_unknown_group_witness :
  GameTextDB.banks "credits" (GameTextDB.store "main" 0 1%positive GameTextDB.empty)
    = Err NotFound ∧
  ("credits" ∉ dom (GameTextDB.groups
                      (GameTextDB.store "main" 0 1%positive GameTextDB.empty))) ∧
  (∀ id, GameTextDB.bank_exists "credits" id
           (GameTextDB.store "main" 0 1%positive GameTextDB.empty) = false) ∧
  (∀ id, GameTextDB.bank_by_id "credits" id
           (GameTextDB.store "main" 0 1%positive GameTextDB.empty) = Ok None).
Proof.
  apply (text_banks_of_unknown_group "credits"
           (GameTextDB.store "main" 0 1%positive GameTextDB.empty)).
  vm_compute. reflexivity.
Defined.

(** ** GameSubtitleBank and GameSubtitleDB *)

Lemma subtitle_bank_by_id_returns (id : Z) (db : GameSubtitleDB.t) :
  GameSubtitleDB.bank_by_id id db = Ok (GameSubtitleDB.m_banks db !! id).
Proof.
  unfold GameSubtitleDB.bank_by_id, GameSubtitleDB.bank_exists, map_contains, map_at.
  by destruct (GameSubtitleDB.m_banks db !! id).
Qed.

Lemma add_scene_key_taken (scene : GameSubtitleSceneInfo.t)
    (b : GameSubtitleBank.t) :
  GameSubtitleBank.scene_exists (GameSubtitleSceneInfo.name scene)
    (state_of (GameSubtitleBank.add_scene scene b)) = true.
Proof.
  unfold GameSubtitleBank.add_scene.
  destruct (GameSubtitleBank.scene_exists _ b) eqn:Hex; simpl; [done|].
  apply map_contains_true, map_insert_new_lookup.
Qed.

Lemma add_scene_taken (scene : GameSubtitleSceneInfo.t) (b : GameSubtitleBank.t) :
  GameSubtitleBank.scene_exists (GameSubtitleSceneInfo.name scene) b = true →
  GameSubtitleBank.add_scene scene b = Fails DuplicateKey b.
Proof. intros Hex. unfold GameSubtitleBank.add_scene. by rewrite Hex. Qed.

Lemma add_scene_fresh (scene : GameSubtitleSceneInfo.t) (b : GameSubtitleBank.t) :
  GameSubtitleBank.scene_exists (GameSubtitleSceneInfo.name scene) b = false →
  ∃ b', GameSubtitleBank.add_scene scene b = Returns tt b' ∧
        GameSubtitleBank.scene_by_name (GameSubtitleSceneInfo.name scene) b'
          = Ok scene.
Proof.
  intros Hex. unfold GameSubtitleBank.add_scene. rewrite Hex. simpl.
  eexists. split; [done|]. apply map_at_Ok. simpl.
  apply map_contains_false in Hex. unfold map_insert_new. rewrite Hex.
  apply lookup_insert_eq.
Qed.

Lemma subtitle_add_bank_key_taken (heap : gmap addr GameSubtitleBank.t)
    (bank : addr) (b : GameSubtitleBank.t) (db : GameSubtitleDB.t) :
  heap !! bank = Some b →
  GameSubtitleDB.bank_exists (GameSubtitleBank.lang b)
    (state_of (GameSubtitleDB.add_bank heap bank db)) = true.
Proof.
  intros Hb. unfold GameSubtitleDB.add_bank. rewrite Hb.
  destruct (GameSubtitleDB.bank_exists _ db) eqn:Hex; simpl; [done|].
  apply map_contains_true. simpl. rewrite lookup_insert_eq. by eexists.
Qed.

Lemma subtitle_add_bank_taken (heap : gmap addr GameSubtitleBank.t)
    (bank : addr) (b : GameSubtitleBank.t) (db : GameSubtitleDB.t) :
  heap !! bank = Some b →
  GameSubtitleDB.bank_exists (GameSubtitleBank.lang b) db = true →
  GameSubtitleDB.add_bank heap bank db = Fails DuplicateKey db.
Proof. intros Hb Hex. unfold GameSubtitleDB.add_bank. by rewrite Hb, Hex. Qed.

(** C2. A second call with the key of a first call fails on its [ASSERT]
    (DuplicateKey) and leaves the container as the first call left it.  This
    holds for [GameSubtitleBank::add_scene] (key: the name of the scene), for
    [GameSubtitleDB::add_bank] (key: the language of the bank) and for
    [GameTextDB::add_bank] (key: the group and the language of the bank).  The
    banks are read through their pointers at the time of each call. *)
Theorem second_add_fails
    (sb : GameSubtitleBank.t) (s1 s2 : GameSubtitleSceneInfo.t)
    (sheap1 sheap2 : gmap addr GameSubtitleBank.t) (sdb : GameSubtitleDB.t)
    (p1 p2 : addr) (b1 b2 : GameSubtitleBank.t)
    (theap1 theap2 : gmap addr GameTextBank.t) (tdb : GameTextDB.t)
    (group : string) (q1 q2 : addr) (c1 c2 : GameTextBank.t) :
  GameSubtitleSceneInfo.name s2 = GameSubtitleSceneInfo.name s1 →
  sheap1 !! p1 = Some b1 → sheap2 !! p2 = Some b2 →
  GameSubtitleBank.lang b2 = GameSubtitleBank.lang b1 →
  theap1 !! q1 = Some c1 → theap2 !! q2 = Some c2 →
  GameTextBank.lang c2 = GameTextBank.lang c1 →
  let sb1 := state_of (GameSubtitleBank.add_scene s1 sb) in
  let sdb1 := state_of (GameSubtitleDB.add_bank sheap1 p1 sdb) in
  let tdb1 := state_of (GameTextDB.add_bank theap1 group q1 tdb) in
  GameSubtitleBank.add_scene s2 sb1 = Fails DuplicateKey sb1 ∧
  GameSubtitleDB.add_bank sheap2 p2 sdb1 = Fails DuplicateKey sdb1 ∧
  GameTextDB.add_bank theap2 group q2 tdb1 = Fails DuplicateKey tdb1.
Proof.
  intros Hname Hb1 Hb2 Hlang Hc1 Hc2 Hlang' sb1 sdb1 tdb1. split_and!.
  - apply add_scene_taken. rewrite Hname. apply add_scene_key_taken.
  - apply (subtitle_add_bank_taken _ _ b2); [done|]. rewrite Hlang.
    by apply subtitle_add_bank_key_taken.
  - apply (text_add_bank_taken _ _ _ c2); [done|]. rewrite Hlang'.
    by apply text_add_bank_key_taken.
Qed.

Lemma second_add_fails_witness :
  let sb1 := state_of (GameSubtitleBank.add_scene intro_scene
                         (GameSubtitleBank.new 0)) in
  let sdb1 := state_of (GameSubtitleDB.add_bank two_subtitle_banks 1%positive
                          GameSubtitleDB.empty) in
  let tdb1 := state_of (GameTextDB.add_bank two_text_banks "main" 1%positive
                          GameTextDB.empty) in
  GameSubtitleBank.add_scene other_intro_scene sb1 = Fails DuplicateKey sb1 ∧
  GameSubtitleDB.add_bank two_subtitle_banks 2%positive sdb1
    = Fails DuplicateKey sdb1 ∧
  GameTextDB.add_bank two_text_banks "main" 2%positive tdb1
    = Fails DuplicateKey tdb1.
Proof.
  apply (second_add_fails (GameSubtitleBank.new 0) intro_scene other_intro_scene
           two_subtitle_banks two_subtitle_banks GameSubtitleDB.empty
           1%positive 2%positive (GameSubtitleBank.new 0) (GameSubtitleBank.new 0)
           two_text_banks two_text_banks GameTextDB.empty "main"
           1%positive 2%positive (GameTextBank.new 0) (GameTextBank.new 0));
    reflexivity.
Defined.

(** C3. On a key that is missing, the optional lookups
    [GameTextDB::bank_by_id] and [GameSubtitleDB::bank_by_id] return the null
    pointer, and they return (never throw) on every key; the required lookups
    [GameTextBank::line] and [GameSubtitleBank::scene_by_name] throw
    [std::out_of_range] (NotFound). *)
Theorem lookups_of_missing_keys
    (tdb : GameTextDB.t) (group : string) (lang : Z)
    (sdb : GameSubtitleDB.t) (slang : Z)
    (tb : GameTextBank.t) (id : Z)
    (sb : GameSubtitleBank.t) (name : string) :
  GameTextDB.m_banks tdb !! group ≫= (.!! lang) = None →
  GameSubtitleDB.m_banks sdb !! slang = None →
  GameTextBank.m_lines tb !! id = None →
  GameSubtitleBank.m_scenes sb !! name = None →
  GameTextDB.bank_by_id group lang tdb = Ok None ∧
  GameSubtitleDB.bank_by_id slang sdb = Ok None ∧
  (∀ group' lang', ∃ p, GameTextDB.bank_by_id group' lang' tdb = Ok p) ∧
  (∀ slang', ∃ p, GameSubtitleDB.bank_by_id slang' sdb = Ok p) ∧
  GameTextBank.line id tb = Err NotFound ∧
  GameSubtitleBank.scene_by_name name sb = Err NotFound.
Proof.
  intros Htdb Hsdb Htb Hsb. split_and!.
  - by rewrite text_bank_by_id_returns, Htdb.
  - by rewrite subtitle_bank_by_id_returns, Hsdb.
  - intros group' lang'. eexists. apply text_bank_by_id_returns.
  - intros slang'. eexists. apply subtitle_bank_by_id_returns.
  - by apply map_at_Err.
  - by apply map_at_Err.
Qed.

Lemma lookups_of_missing_keys_witness :
  GameTextDB.bank_by_id "main" 1
    (GameTextDB.store "main" 0 1%positive GameTextDB.empty) = Ok None ∧
  GameSubtitleDB.bank_by_id 3 GameSubtitleDB.empty = Ok None ∧
  (∀ group' lang', ∃ p,
     GameTextDB.bank_by_id group' lang'
       (GameTextDB.store "main" 0 1%positive GameTextDB.empty) = Ok p) ∧
  (∀ slang', ∃ p, GameSubtitleDB.bank_by_id slang' GameSubtitleDB.empty = Ok p) ∧
  GameTextBank.line 6 (GameTextBank.set_line 5 "Hello" (GameTextBank.new 0))
    = Err NotFound ∧
  GameSubtitleBank.scene_by_name "outro" (GameSubtitleBank.new 0) = Err NotFound.
Proof.
  apply (lookups_of_missing_keys
           (GameTextDB.store "main" 0 1%positive GameTextDB.empty) "main" 1
           GameSubtitleDB.empty 3
           (GameTextBank.set_line 5 "Hello" (GameTextBank.new 0)) 6
           (GameSubtitleBank.new 0) "outro");
    vm_compute; reflexivity.
Defined.

(** ** GameSubtitleSceneInfo *)

(** C9. [a.from_other_scene(b)] gives [a] the name, the lines, the kind and
    the id of [b], whatever they were in [a], and leaves the sorting group and
    the sorting group index of [a] as they were. *)
Theorem from_other_scene_copies (a b : GameSubtitleSceneInfo.t) :
  let a' := GameSubtitleSceneInfo.from_other_scene b a in
  GameSubtitleSceneInfo.name a' = GameSubtitleSceneInfo.name b ∧
  GameSubtitleSceneInfo.lines a' = GameSubtitleSceneInfo.lines b ∧
  GameSubtitleSceneInfo.kind a' = GameSubtitleSceneInfo.kind b ∧
  GameSubtitleSceneInfo.id a' = GameSubtitleSceneInfo.id b ∧
  GameSubtitleSceneInfo.m_sorting_group a' =
    GameSubtitleSceneInfo.m_sorting_group a ∧
  GameSubtitleSceneInfo.m_sorting_group_idx a' =
    GameSubtitleSceneInfo.m_sorting_group_idx a.
Proof. by split_and!. Qed.

(** *** Sorting *)

Lemma lt_false_le_frame (a b : SubtitleLine.t) :
  SubtitleLine.lt b a = false ↔ le_frame a b.
Proof.
  unfold SubtitleLine.lt, le_frame. rewrite bool_decide_eq_false. lia.
Qed.

#[global] Instance le_frame_trans : Transitive le_frame.
Proof. unfold le_frame. intros a b c. lia. Qed.

#[global] Instance le_frame_total : Total le_frame.
Proof. unfold le_frame. intros a b. lia. Qed.

Lemma ascending_cons (x : SubtitleLine.t) (l : list SubtitleLine.t) :
  ascending (x :: l) ↔ Forall (le_frame x) l ∧ ascending l.
Proof.
  split.
  - intros Hasc. split.
    + apply Forall_lookup. intros i y Hy. apply lt_false_le_frame.
      apply (Hasc 0%nat (S i)); [lia|done|done].
    + intros i j a b Hij Ha Hb. apply (Hasc (S i) (S j)); [lia|done|done].
  - intros [Hx Hasc] i j a b Hij Ha Hb.
    destruct j as [|j]; [lia|]. simpl in Hb.
    destruct i as [|i]; simpl in Ha.
    + simplify_eq. apply lt_false_le_frame.
      rewrite Forall_lookup in Hx. by apply (Hx j).
    + apply (Hasc i j); [lia|done|done].
Qed.

Lemma ascending_StronglySorted (l : list SubtitleLine.t) :
  ascending l ↔ StronglySorted le_frame l.
Proof.
  induction l as [|x l IH].
  - split; [constructor|]. intros _ i j a b _ Ha. by rewrite lookup_nil in Ha.
  - rewrite ascending_cons, StronglySorted_cons. by rewrite IH.
Qed.

Lemma ascending_nondecreasing (l : list SubtitleLine.t) :
  ascending l ↔ nondecreasing_in_frame l.
Proof.
  unfold ascending, nondecreasing_in_frame.
  split; intros Hl i j a b Hij Ha Hb.
  - apply (lt_false_le_frame a b). by apply (Hl i j).
  - apply (lt_false_le_frame a b). by apply (Hl i j).
Qed.

(** Lines in ascending order, no two of them at the same frame, are in the
    only order their frames allow. *)
Lemma ascending_unique (l1 l2 : list SubtitleLine.t) :
  NoDup (SubtitleLine.frame <$> l1) →
  ascending l1 → ascending l2 → l1 ≡ₚ l2 → l1 = l2.
Proof.
  intros Hnd H1 H2 Hperm.
  apply (StronglySorted_unique_strong le_frame);
    [|by apply ascending_StronglySorted..|done].
  intros x1 x2 Hx1 Hx2 Hle1 Hle2.
  rewrite <-Hperm in Hx2.
  assert (SubtitleLine.frame x1 = SubtitleLine.frame x2) as Hf
    by (unfold le_frame in *; lia).
  apply list_elem_of_lookup in Hx1 as [i Hi], Hx2 as [j Hj].
  assert (i = j) as ->.
  { eapply NoDup_lookup; [done| |].
    - by rewrite list_lookup_fmap, Hi.
    - by rewrite list_lookup_fmap, Hj, Hf. }
  congruence.
Qed.

Lemma merge_sort_lines_contract : std_sort_contract merge_sort_lines.
Proof.
  split; intros l; unfold merge_sort_lines.
  - apply merge_sort_Permutation.
  - apply ascending_StronglySorted, StronglySorted_merge_sort; apply _.
Qed.

Lemma reversing_sort_lines_contract : std_sort_contract reversing_sort_lines.
Proof.
  split; intros l; unfold reversing_sort_lines.
  - by rewrite merge_sort_Permutation, reverse_Permutation.
  - apply ascending_StronglySorted, StronglySorted_merge_sort; apply _.
Qed.

Section scene_calls.

Variable std_sort : list SubtitleLine.t → list SubtitleLine.t.
Hypothesis contract : std_sort_contract std_sort.

Lemma perform_lines (s : GameSubtitleSceneInfo.t) (c : scene_call) :
  GameSubtitleSceneInfo.lines (perform std_sort s c) =
    std_sort (GameSubtitleSceneInfo.lines s ++ [inserted c]).
Proof. by destruct c. Qed.

Lemma perform_all_snoc (s : GameSubtitleSceneInfo.t) (cs : list scene_call)
    (c : scene_call) :
  perform_all std_sort (cs ++ [c]) s =
    perform std_sort (perform_all std_sort cs s) c.
Proof. unfold perform_all. apply foldl_snoc. Qed.

Lemma perform_all_permutes (s : GameSubtitleSceneInfo.t) (cs : list scene_call) :
  GameSubtitleSceneInfo.lines (perform_all std_sort cs s) ≡ₚ
    GameSubtitleSceneInfo.lines s ++ (inserted <$> cs).
Proof.
  induction cs as [|c cs IH] using rev_ind.
  - simpl. by rewrite app_nil_r.
  - rewrite perform_all_snoc, perform_lines, (sort_permutes _ contract).
    rewrite IH, fmap_app. simpl. by rewrite app_assoc.
Qed.

(** One call is enough to put the lines of any scene in order. *)
Lemma perform_all_ascending (s : GameSubtitleSceneInfo.t)
    (cs : list scene_call) :
  cs ≠ [] →
  nondecreasing_in_frame (GameSubtitleSceneInfo.lines (perform_all std_sort cs s)).
Proof.
  destruct cs as [|c cs _] using rev_ind; [done|]. intros _.
  rewrite perform_all_snoc, perform_lines.
  apply ascending_nondecreasing, (sort_ascending _ contract).
Qed.

Lemma perform_all_new_ascending (kind : SubtitleSceneKind)
    (cs : list scene_call) :
  nondecreasing_in_frame
    (GameSubtitleSceneInfo.lines
       (perform_all std_sort cs (GameSubtitleSceneInfo.new kind))).
Proof.
  destruct (decide (cs = [])) as [->|Hcs].
  - intros i j a b _ Ha. by destruct i.
  - by apply perform_all_ascending.
Qed.

End scene_calls.

(** Without two lines at the same frame, every [std::sort] gives the lines in
    the same order, the one a merge sort gives. *)
Lemma perform_all_distinct_frames
    (std_sort : list SubtitleLine.t → list SubtitleLine.t)
    (kind : SubtitleSceneKind) (cs : list scene_call) :
  std_sort_contract std_sort →
  NoDup (SubtitleLine.frame <$> (inserted <$> cs)) →
  GameSubtitleSceneInfo.lines
    (perform_all std_sort cs (GameSubtitleSceneInfo.new kind)) =
  merge_sort_lines (inserted <$> cs).
Proof.
  intros contract Hnd. symmetry. apply ascending_unique.
  - by rewrite (sort_permutes _ merge_sort_lines_contract).
  - apply (sort_ascending _ merge_sort_lines_contract).
  - apply ascending_nondecreasing. by apply perform_all_new_ascending.
  - rewrite (sort_permutes _ merge_sort_lines_contract).
    symmetry. by apply (perform_all_permutes _ contract).
Qed.

(** C1 (as amended). Whatever [std::sort] the library provides, after any
    sequence of [add_line] and [add_clear_entry] calls on a new scene the lines
    are non-decreasing in frame and are the inserted lines, rearranged.  When
    no two inserted lines have the same frame, that fixes the order
    completely; between lines of equal frame no order is promised. *)
Theorem lines_sorted_by_frame
    (std_sort : list SubtitleLine.t → list SubtitleLine.t)
    (kind : SubtitleSceneKind) (cs : list scene_call) :
  std_sort_contract std_sort →
  let s := perform_all std_sort cs (GameSubtitleSceneInfo.new kind) in
  nondecreasing_in_frame (GameSubtitleSceneInfo.lines s) ∧
  GameSubtitleSceneInfo.lines s ≡ₚ inserted <$> cs ∧
  (NoDup (SubtitleLine.frame <$> (inserted <$> cs)) →
   GameSubtitleSceneInfo.lines s = merge_sort_lines (inserted <$> cs)).
Proof.
  intros contract s. split_and!.
  - by apply perform_all_new_ascending.
  - by apply (perform_all_permutes _ contract).
  - by apply perform_all_distinct_frames.
Qed.

Lemma lines_sorted_by_frame_witness :
  let s := perform_all merge_sort_lines mixed_calls
             (GameSubtitleSceneInfo.new Movie) in
  nondecreasing_in_frame (GameSubtitleSceneInfo.lines s) ∧
  GameSubtitleSceneInfo.lines s ≡ₚ inserted <$> mixed_calls ∧
  (NoDup (SubtitleLine.frame <$> (inserted <$> mixed_calls)) →
   GameSubtitleSceneInfo.lines s = merge_sort_lines (inserted <$> mixed_calls)).
Proof.
  apply (lines_sorted_by_frame merge_sort_lines Movie mixed_calls).
  exact merge_sort_lines_contract.
Defined.

(** Rewrites an innermost call of the sort with what libstdc++ computes. *)
Ltac libstdcxx_step :=
  match goal with
  | Hagree : agrees_with_libstdcxx ?f |- context [?f ?l] =>
    lazymatch l with context [f _] => fail | _ => idtac end;
    let r := eval vm_compute in (libstdcxx.sort SubtitleLine.lt l) in
    lazymatch r with
    | Some ?r' => rewrite (Hagree l r' ltac:(vm_compute; reflexivity))
    end
  end.

(** Under libstdc++, the seventeenth line added at one frame takes the sort
    through [__unguarded_partition], whose swaps reorder the lines. *)
Lemma libstdcxx_seventeen_lines
    (std_sort : list SubtitleLine.t → list SubtitleLine.t)
    (kind : SubtitleSceneKind) :
  agrees_with_libstdcxx std_sort →
  SubtitleLine.line <$>
    GameSubtitleSceneInfo.lines
      (perform_all std_sort seventeen_calls (GameSubtitleSceneInfo.new kind)) =
  ["09"; "17"; "16"; "15"; "14"; "13"; "12"; "11"; "10"; "01"; "08"; "07";
   "06"; "05"; "04"; "03"; "02"].
Proof.
  intros Hagree. unfold perform_all, seventeen_calls, seventeen_texts. simpl.
  unfold GameSubtitleSceneInfo.add_line. simpl.
  repeat libstdcxx_step. reflexivity.
Qed.

Lemma libstdcxx_sort_lines_agrees : agrees_with_libstdcxx libstdcxx_sort_lines.
Proof. intros l r Hr. unfold libstdcxx_sort_lines. by rewrite Hr. Qed.

(** C1, the part that fails: with the [std::sort] of libstdc++, seventeen
    [add_line] calls at frame 0 leave the lines in another order than the one
    they were inserted in, so ties are not kept in insertion order. *)
Lemma equal_frames_reordered : ¬ stable_by_frame libstdcxx_sort_lines.
Proof.
  intros Hstable.
  destruct (Hstable Movie seventeen_calls) as [_ Hkeep].
  specialize (Hkeep 0%Z). vm_compute in Hkeep. discriminate Hkeep.
Qed.

(** The promise of [std::sort] does not include the order of ties: a sort
    that keeps it reverses two lines added at the same frame. *)
Lemma insertion_order_not_promised :
  ¬ (∀ std_sort, std_sort_contract std_sort → stable_by_frame std_sort).
Proof.
  intros Hall.
  destruct (Hall reversing_sort_lines reversing_sort_lines_contract Movie
              [call_add_line 10 "a" "" false; call_add_line 10 "b" "" false])
    as [_ Hkeep].
  specialize (Hkeep 10%Z). vm_compute in Hkeep. discriminate Hkeep.
Qed.

(** C6. On a new scene, [add_line] at frame 30 with text "a", then at frame 10
    with text "b", then at frame 20 with text "c" leaves the lines in the
    order (10, "b"), (20, "c"), (30, "a"), whatever the speakers and the
    offscreen flags, and whatever [std::sort] the library provides. *)
Theorem three_lines_in_frame_order
    (std_sort : list SubtitleLine.t → list SubtitleLine.t)
    (kind : SubtitleSceneKind)
    (speaker_a speaker_b speaker_c : string)
    (offscreen_a offscreen_b offscreen_c : bool) :
  std_sort_contract std_sort →
  GameSubtitleSceneInfo.lines
    (GameSubtitleSceneInfo.add_line std_sort 20 "c" speaker_c offscreen_c
       (GameSubtitleSceneInfo.add_line std_sort 10 "b" speaker_b offscreen_b
          (GameSubtitleSceneInfo.add_line std_sort 30 "a" speaker_a offscreen_a
             (GameSubtitleSceneInfo.new kind)))) =
  [ SubtitleLine.mk 10 "b" speaker_b offscreen_b;
    SubtitleLine.mk 20 "c" speaker_c offscreen_c;
    SubtitleLine.mk 30 "a" speaker_a offscreen_a ].
Proof.
  intros contract.
  change (GameSubtitleSceneInfo.lines
            (perform_all std_sort
               [ call_add_line 30 "a" speaker_a offscreen_a;
                 call_add_line 10 "b" speaker_b offscreen_b;
                 call_add_line 20 "c" speaker_c offscreen_c ]
               (GameSubtitleSceneInfo.new kind)) =
          [ SubtitleLine.mk 10 "b" speaker_b offscreen_b;
            SubtitleLine.mk 20 "c" speaker_c offscreen_c;
            SubtitleLine.mk 30 "a" speaker_a offscreen_a ]).
  rewrite perform_all_distinct_frames; [reflexivity|done|]. simpl.
  compute_done.
Qed.

Lemma three_lines_in_frame_order_witness :
  GameSubtitleSceneInfo.lines
    (GameSubtitleSceneInfo.add_line merge_sort_lines 20 "c" "sage" true
       (GameSubtitleSceneInfo.add_line merge_sort_lines 10 "b" "keira" false
          (GameSubtitleSceneInfo.add_line merge_sort_lines 30 "a" "jak" false
             (GameSubtitleSceneInfo.new Movie)))) =
  [ SubtitleLine.mk 10 "b" "keira" false;
    SubtitleLine.mk 20 "c" "sage" true;
    SubtitleLine.mk 30 "a" "jak" false ].
Proof.
  apply (three_lines_in_frame_order merge_sort_lines Movie
           "jak" "keira" "sage" false false true).
  exact merge_sort_lines_contract.
Defined.

(** The same three calls through the [std::sort] of libstdc++. *)
Lemma three_lines_libstdcxx :
  GameSubtitleSceneInfo.lines
    (GameSubtitleSceneInfo.add_line libstdcxx_sort_lines 20 "c" "" false
       (GameSubtitleSceneInfo.add_line libstdcxx_sort_lines 10 "b" "" false
          (GameSubtitleSceneInfo.add_line libstdcxx_sort_lines 30 "a" "" false
             (GameSubtitleSceneInfo.new Movie)))) =
  [ SubtitleLine.mk 10 "b" "" false;
    SubtitleLine.mk 20 "c" "" false;
    SubtitleLine.mk 30 "a" "" false ].
Proof. vm_compute. reflexivity. Qed.

(** ** GameSubtitleGroups *)

Lemma occurrences_elem_of (scene_name : string) (scenes : list string) :
  scene_name ∈ scenes ↔ (1 ≤ occurrences scene_name scenes)%nat.
Proof.
  unfold occurrences. split.
  - intros Hin.
    assert (scene_name ∈ filter (λ s, s = scene_name) scenes) as Hf
      by (by apply list_elem_of_filter).
    destruct (filter _ scenes); [by apply not_elem_of_nil in Hf|simpl; lia].
  - intros Hlen.
    destruct (filter (λ s, s = scene_name) scenes) as [|s l] eqn:Hf;
      [simpl in Hlen; lia|].
    assert (s ∈ filter (λ s, s = scene_name) scenes) as Hs
      by (rewrite Hf; left).
    by apply list_elem_of_filter in Hs as [-> ?].
Qed.

Lemma occurrences_snoc (scene_name : string) (scenes : list string) :
  occurrences scene_name (scenes ++ [scene_name]) =
    S (occurrences scene_name scenes).
Proof.
  unfold occurrences. rewrite filter_app, length_app.
  rewrite filter_cons_True by done. simpl. lia.
Qed.

Lemma add_scene_scenes_of (group_name scene_name : string)
    (g : GameSubtitleGroups.t) :
  GameSubtitleGroups.scenes_of group_name
    (GameSubtitleGroups.add_scene group_name scene_name g) =
  if decide (scene_name ∈ GameSubtitleGroups.scenes_of group_name g)
  then GameSubtitleGroups.scenes_of group_name g
  else GameSubtitleGroups.scenes_of group_name g ++ [scene_name].
Proof.
  unfold GameSubtitleGroups.add_scene, GameSubtitleGroups.scenes_of at 1.
  simpl. by rewrite lookup_insert_eq.
Qed.

Lemma add_scene_group_order (group_name scene_name : string)
    (g : GameSubtitleGroups.t) :
  GameSubtitleGroups.m_group_order
    (GameSubtitleGroups.add_scene group_name scene_name g) =
  if decide (group_name ∈ GameSubtitleGroups.m_group_order g)
  then GameSubtitleGroups.m_group_order g
  else GameSubtitleGroups.m_group_order g ++ [group_name].
Proof. reflexivity. Qed.

Lemma add_scene_listed (group_name scene_name : string)
    (g : GameSubtitleGroups.t) :
  scene_name ∈ GameSubtitleGroups.scenes_of group_name
                 (GameSubtitleGroups.add_scene group_name scene_name g).
Proof.
  rewrite add_scene_scenes_of. case_decide; [done|].
  apply elem_of_app. right. by apply list_elem_of_singleton.
Qed.

Lemma add_scene_ordered (group_name scene_name : string)
    (g : GameSubtitleGroups.t) :
  group_name ∈ GameSubtitleGroups.m_group_order
                 (GameSubtitleGroups.add_scene group_name scene_name g).
Proof.
  rewrite add_scene_group_order. case_decide; [done|].
  apply elem_of_app. right. by apply list_elem_of_singleton.
Qed.

(** Adding a scene where it is listed, in a group that is in the order,
    changes nothing but the map entry, which it writes back. *)
Lemma add_scene_again (group_name scene_name : string)
    (g : GameSubtitleGroups.t) :
  GameSubtitleGroups.add_scene group_name scene_name
    (GameSubtitleGroups.add_scene group_name scene_name g) =
  GameSubtitleGroups.add_scene group_name scene_name g.
Proof.
  pose proof (add_scene_listed group_name scene_name g) as Hs.
  pose proof (add_scene_ordered group_name scene_name g) as Ho.
  remember (GameSubtitleGroups.add_scene group_name scene_name g) as g1 eqn:Hg1.
  unfold GameSubtitleGroups.add_scene at 1.
  rewrite decide_True by done. rewrite decide_True by done.
  unfold GameSubtitleGroups.with_groups. destruct g1 as [order groups key unc].
  simpl. f_equal. apply insert_id.
  unfold GameSubtitleGroups.scenes_of. simpl.
  assert (is_Some (groups !! group_name)) as [scenes Hscenes].
  { unfold GameSubtitleGroups.add_scene, GameSubtitleGroups.with_groups in Hg1.
    injection Hg1 as _ -> _ _. rewrite lookup_insert_eq. by eexists. }
  by rewrite Hscenes.
Qed.

Lemma remove_scene_lookup (group_name scene_name group : string)
    (g : GameSubtitleGroups.t) :
  GameSubtitleGroups.m_groups
    (GameSubtitleGroups.remove_scene group_name scene_name g) !! group =
  if decide (group_name = group)
  then filter (λ s, s ≠ scene_name) <$> GameSubtitleGroups.m_groups g !! group
  else GameSubtitleGroups.m_groups g !! group.
Proof.
  unfold GameSubtitleGroups.remove_scene.
  destruct (GameSubtitleGroups.m_groups g !! group_name) as [scenes|] eqn:Hg.
  - simpl. rewrite lookup_insert. case_decide; [|done]. subst. by rewrite Hg.
  - case_decide; [|done]. subst. by rewrite Hg.
Qed.

(** Groups edited through [add_scene] and [remove_scene] only, from groups
    without repeats, have no repeats; a scene is then at most once in a
    list. *)
Lemma edit_without_repeats (g : GameSubtitleGroups.t) (cs : list group_call) :
  lists_without_repeats g → lists_without_repeats (foldl edit g cs).
Proof.
  revert g. induction cs as [|c cs IH]; intros g Hg; [done|].
  simpl. apply IH. intros group. destruct c as [gn sn|gn sn]; simpl.
  - destruct (decide (gn = group)) as [->|Hne].
    + rewrite add_scene_scenes_of. case_decide as Hin; [done|].
      apply NoDup_app. split_and!; [done| |apply NoDup_singleton].
      intros x Hx ->%list_elem_of_singleton. done.
    + unfold GameSubtitleGroups.scenes_of, GameSubtitleGroups.add_scene. simpl.
      rewrite lookup_insert_ne by done. apply Hg.
  - unfold GameSubtitleGroups.scenes_of. rewrite remove_scene_lookup.
    case_decide as Hgn; [|apply Hg]. subst gn.
    specialize (Hg group). unfold GameSubtitleGroups.scenes_of in Hg.
    destruct (GameSubtitleGroups.m_groups g !! group); simpl; [|constructor].
    by apply NoDup_filter.
Qed.

Lemma without_repeats_at_most_once (group_name scene_name : string)
    (g : GameSubtitleGroups.t) :
  lists_without_repeats g → listed_at_most_once group_name scene_name g.
Proof.
  intros Hg. unfold listed_at_most_once, occurrences.
  specialize (Hg group_name).
  induction Hg as [|x l Hx Hl IH]; [simpl; lia|].
  destruct (decide (x = scene_name)) as [->|Hne].
  - rewrite filter_cons_True by done. simpl.
    destruct (filter _ l) as [|y k] eqn:Hf; [simpl; lia|].
    assert (y ∈ filter (λ s, s = scene_name) l) as Hy by (rewrite Hf; left).
    apply list_elem_of_filter in Hy as [-> Hy]. done.
  - by rewrite filter_cons_False.
Qed.

Lemma new_groups_without_repeats : lists_without_repeats GameSubtitleGroups.new.
Proof.
  intros group. unfold GameSubtitleGroups.scenes_of. simpl.
  rewrite lookup_empty. constructor.
Qed.

Lemma add_scene_listed_once (group_name scene_name : string)
    (g : GameSubtitleGroups.t) :
  listed_at_most_once group_name scene_name g →
  occurrences scene_name
    (GameSubtitleGroups.scenes_of group_name
       (GameSubtitleGroups.add_scene group_name scene_name g)) = 1%nat.
Proof.
  intros Honce. rewrite add_scene_scenes_of. case_decide as Hin.
  - apply occurrences_elem_of in Hin. unfold listed_at_most_once in Honce. lia.
  - rewrite occurrences_snoc. rewrite occurrences_elem_of in Hin. lia.
Qed.

(** On groups built from nothing by [add_scene] and [remove_scene], two
    calls of [add_scene(g, s)] leave [s] exactly once in the list of [g]. *)
Lemma add_scene_twice_after_edits (cs : list group_call)
    (group_name scene_name : string) :
  occurrences scene_name
    (GameSubtitleGroups.scenes_of group_name
       (GameSubtitleGroups.add_scene group_name scene_name
          (GameSubtitleGroups.add_scene group_name scene_name
             (foldl edit GameSubtitleGroups.new cs)))) = 1%nat.
Proof.
  rewrite add_scene_again. apply add_scene_listed_once.
  apply without_repeats_at_most_once, edit_without_repeats.
  apply new_groups_without_repeats.
Qed.

Lemma add_scene_occurrences (group_name scene_name : string)
    (g : GameSubtitleGroups.t) :
  occurrences scene_name
    (GameSubtitleGroups.scenes_of group_name
       (GameSubtitleGroups.add_scene group_name scene_name g)) =
  (1 `max` occurrences scene_name
             (GameSubtitleGroups.scenes_of group_name g))%nat.
Proof.
  rewrite add_scene_scenes_of. case_decide as Hin.
  - apply occurrences_elem_of in Hin. lia.
  - rewrite occurrences_snoc. rewrite occurrences_elem_of in Hin. lia.
Qed.

(** C7 (as amended). [add_scene(g, s)] puts [g] in the group order, at the end
    when it was not there, and puts [s] in the list of [g], at the end when it
    was not there; the other scenes of [g], the other groups and the two names
    kept in the object stay as they were.  A second call changes nothing: the
    groups and the group order are as after the first call.  After the calls
    [s] is in the list of [g] as often as it was before them, and once when it
    was not there: exactly once whenever it was there at most once before. *)
Theorem add_scene_idempotent (group_name scene_name : string)
    (g : GameSubtitleGroups.t) :
  let g1 := GameSubtitleGroups.add_scene group_name scene_name g in
  let g2 := GameSubtitleGroups.add_scene group_name scene_name g1 in
  GameSubtitleGroups.m_group_order g1 =
    (if decide (group_name ∈ GameSubtitleGroups.m_group_order g)
     then GameSubtitleGroups.m_group_order g
     else GameSubtitleGroups.m_group_order g ++ [group_name]) ∧
  GameSubtitleGroups.m_groups g1 !! group_name =
    Some (if decide (scene_name ∈ GameSubtitleGroups.scenes_of group_name g)
          then GameSubtitleGroups.scenes_of group_name g
          else GameSubtitleGroups.scenes_of group_name g ++ [scene_name]) ∧
  (∀ group, group ≠ group_name →
     GameSubtitleGroups.m_groups g1 !! group =
       GameSubtitleGroups.m_groups g !! group) ∧
  GameSubtitleGroups.group_order_key g1 = GameSubtitleGroups.group_order_key g ∧
  GameSubtitleGroups.uncategorized_group g1 =
    GameSubtitleGroups.uncategorized_group g ∧
  group_name ∈ GameSubtitleGroups.m_group_order g1 ∧
  scene_name ∈ GameSubtitleGroups.scenes_of group_name g1 ∧
  g2 = g1 ∧
  GameSubtitleGroups.m_group_order g2 = GameSubtitleGroups.m_group_order g1 ∧
  occurrences scene_name (GameSubtitleGroups.scenes_of group_name g2) =
    (1 `max` occurrences scene_name
               (GameSubtitleGroups.scenes_of group_name g))%nat ∧
  (listed_at_most_once group_name scene_name g →
   occurrences scene_name (GameSubtitleGroups.scenes_of group_name g2) = 1%nat).
Proof.
  intros g1 g2.
  assert (g2 = g1) as Heq by apply add_scene_again.
  split_and!.
  - apply add_scene_group_order.
  - subst g1. unfold GameSubtitleGroups.add_scene. simpl.
    by rewrite lookup_insert_eq.
  - intros group Hgroup. subst g1. unfold GameSubtitleGroups.add_scene. simpl.
    by rewrite lookup_insert_ne.
  - done.
  - done.
  - apply add_scene_ordered.
  - apply add_scene_listed.
  - done.
  - by rewrite Heq.
  - rewrite Heq. apply add_scene_occurrences.
  - intros Honce. rewrite Heq. by apply add_scene_listed_once.
Qed.

(** C7, the part that fails: where "intro" is twice in the list of "movies",
    as in groups read from a file that lists it twice, two calls of
    [add_scene("movies", "intro")] leave it there twice, not once. *)
Lemma add_scene_keeps_repeats : ¬ listed_once_after_two_calls.
Proof.
  intros Honce. specialize (Honce "movies" "intro" repeated_groups).
  vm_compute in Honce. discriminate Honce.
Qed.

(** The scenario of the specification: the order ["_groups"] becomes
    ["_groups"; "intro_movies"]. *)
Lemma add_scene_appends_group :
  GameSubtitleGroups.m_group_order
    (GameSubtitleGroups.add_scene "intro_movies" "intro"
       (GameSubtitleGroups.mk ["_groups"] ∅ "_groups" "uncategorized")) =
  ["_groups"; "intro_movies"].
Proof. vm_compute. reflexivity. Qed.

Lemma find_group_ungrouped (scene_name : string) (g : GameSubtitleGroups.t) :
  in_no_group scene_name g →
  GameSubtitleGroups.find_group scene_name g =
    GameSubtitleGroups.uncategorized_group g.
Proof.
  intros Hno. unfold GameSubtitleGroups.find_group.
  destruct (list_find _ _) as [[i [group scenes]]|] eqn:Hfind; [|done].
  apply list_find_Some in Hfind as (Hi & Hin & _). simpl in Hin.
  apply list_elem_of_lookup_2, elem_of_map_to_list in Hi.
  by destruct (Hno group scenes).
Qed.

(** When the scene is in a group, the group reported has it in its list. *)
Lemma find_group_grouped (scene_name group_name : string) (scenes : list string)
    (g : GameSubtitleGroups.t) :
  GameSubtitleGroups.m_groups g !! group_name = Some scenes →
  scene_name ∈ scenes →
  scene_name ∈ GameSubtitleGroups.scenes_of
                 (GameSubtitleGroups.find_group scene_name g) g.
Proof.
  intros Hg Hin. unfold GameSubtitleGroups.find_group.
  destruct (list_find _ _) as [[i [group scenes']]|] eqn:Hfind.
  - apply list_find_Some in Hfind as (Hi & Hin' & _). simpl in Hin'.
    apply list_elem_of_lookup_2, elem_of_map_to_list in Hi.
    unfold GameSubtitleGroups.scenes_of. by rewrite Hi.
  - apply list_find_None in Hfind. rewrite Forall_forall in Hfind.
    destruct (Hfind (group_name, scenes)); [|done].
    by apply elem_of_map_to_list.
Qed.

(** Removing a scene from the one group it is in leaves it in no group. *)
Lemma remove_scene_ungroups (group_name scene_name : string)
    (g : GameSubtitleGroups.t) :
  (∀ group scenes, group ≠ group_name →
     GameSubtitleGroups.m_groups g !! group = Some scenes →
     scene_name ∉ scenes) →
  in_no_group scene_name (GameSubtitleGroups.remove_scene group_name scene_name g).
Proof.
  intros Hothers group scenes. rewrite remove_scene_lookup.
  case_decide as Hgroup.
  - intros Hscenes. apply fmap_Some in Hscenes as (scenes' & _ & ->).
    rewrite list_elem_of_filter. by intros [? _].
  - intros Hscenes. by apply (Hothers group).
Qed.

Lemma remove_scene_fallback (group_name scene_name : string)
    (g : GameSubtitleGroups.t) :
  GameSubtitleGroups.uncategorized_group
    (GameSubtitleGroups.remove_scene group_name scene_name g) =
  GameSubtitleGroups.uncategorized_group g.
Proof.
  unfold GameSubtitleGroups.remove_scene.
  by destruct (GameSubtitleGroups.m_groups g !! group_name).
Qed.

(** C8. [find_group] is a total function.  When "intro" is in no group, adding
    it to "movies" and removing it from "movies" leaves it in no group, and
    [find_group("intro")] is then the fallback name; and for every scene that
    is in no group [find_group] returns the fallback name. *)
Theorem find_group_falls_back (g : GameSubtitleGroups.t) :
  in_no_group "intro" g →
  GameSubtitleGroups.find_group "intro"
    (GameSubtitleGroups.remove_scene "movies" "intro"
       (GameSubtitleGroups.add_scene "movies" "intro" g)) =
    GameSubtitleGroups.uncategorized_group g ∧
  (∀ scene_name g', in_no_group scene_name g' →
     GameSubtitleGroups.find_group scene_name g' =
       GameSubtitleGroups.uncategorized_group g').
Proof.
  intros Hno. split; [|apply find_group_ungrouped].
  rewrite find_group_ungrouped; [by rewrite remove_scene_fallback|].
  apply remove_scene_ungroups. intros group scenes Hgroup.
  unfold GameSubtitleGroups.add_scene. simpl.
  rewrite lookup_insert_ne by done. apply Hno.
Qed.

Lemma hint_groups_no_intro : in_no_group "intro" hint_groups.
Proof.
  intros group scenes Hscenes. simpl in Hscenes.
  apply lookup_singleton_Some in Hscenes as [_ <-].
  intros Hin. by repeat (apply elem_of_cons in Hin as [?|Hin]; [done|]);
    apply not_elem_of_nil in Hin.
Qed.

Lemma find_group_falls_back_witness :
  GameSubtitleGroups.find_group "intro"
    (GameSubtitleGroups.remove_scene "movies" "intro"
       (GameSubtitleGroups.add_scene "movies" "intro" hint_groups)) =
    GameSubtitleGroups.uncategorized_group hint_groups ∧
  (∀ scene_name g', in_no_group scene_name g' →
     GameSubtitleGroups.find_group scene_name g' =
       GameSubtitleGroups.uncategorized_group g').
Proof.
  apply (find_group_falls_back hint_groups). exact hint_groups_no_intro.
Defined.

(** The same scenario, computed; a scene still in a group is reported there. *)
Lemma find_group_scenario :
  GameSubtitleGroups.find_group "intro"
    (GameSubtitleGroups.remove_scene "movies" "intro"
       (GameSubtitleGroups.add_scene "movies" "intro" hint_groups)) =
    "uncategorized" ∧
  GameSubtitleGroups.find_group "intro"
    (GameSubtitleGroups.add_scene "movies" "intro" hint_groups) = "movies" ∧
  GameSubtitleGroups.find_group "sage-hint" hint_groups = "hints".
Proof. vm_compute. done. Qed.

(** ** The scenario of the text database

    A bank for language 0 is allocated at address 1 and added to the group
    "main"; line 5 is set through the pointer; a second bank for language 0,
    at address 2, is refused; nothing is stored for language 1; and the bank
    found for language 0 is the first one, with the line set after it was
    added. *)
Lemma text_database_scenario :
  let heap0 : gmap addr GameTextBank.t := {[ 1%positive := GameTextBank.new 0 ]} in
  let db1 := state_of (GameTextDB.add_bank heap0 "main" 1%positive GameTextDB.empty) in
  let heap1 := alter (GameTextBank.set_line 5 "Hello") 1%positive heap0 in
  let heap2 := <[ 2%positive := GameTextBank.new 0 ]> heap1 in
  GameTextDB.add_bank heap0 "main" 1%positive GameTextDB.empty
    = Returns 1%positive db1 ∧
  GameTextDB.add_bank heap2 "main" 2%positive db1 = Fails DuplicateKey db1 ∧
  GameTextDB.bank_by_id "main" 1 db1 = Ok None ∧
  GameTextDB.bank_by_id "main" 0 db1 = Ok (Some 1%positive) ∧
  GameTextBank.line 5 <$> heap2 !! 1%positive = Some (Ok "Hello").
Proof. vm_compute. done. Qed.

(** * Further properties *)

(** ** GameTextBank *)

Lemma set_line_line_ne (b : GameTextBank.t) (id id' : Z) (text : string) :
  id ≠ id' →
  GameTextBank.line id' (GameTextBank.set_line id text b) =
    GameTextBank.line id' b.
Proof.
  intros Hne. unfold GameTextBank.line, map_at. simpl.
  by rewrite lookup_insert_ne.
Qed.

Lemma set_line_line_eq (b : GameTextBank.t) (id : Z) (text : string) :
  GameTextBank.line id (GameTextBank.set_line id text b) = Ok text.
Proof.
  unfold GameTextBank.line, map_at. simpl. by rewrite lookup_insert_eq.
Qed.

(** X1. [set_line(id, text)] changes the line [id] only: every other line
    reads and probes as before, and the language of the bank stays. *)
Theorem set_line_other_lines (b : GameTextBank.t) (id id' : Z) (text : string) :
  id ≠ id' →
  GameTextBank.line id' (GameTextBank.set_line id text b) =
    GameTextBank.line id' b ∧
  GameTextBank.line_exists id' (GameTextBank.set_line id text b) =
    GameTextBank.line_exists id' b ∧
  GameTextBank.lang (GameTextBank.set_line id text b) = GameTextBank.lang b.
Proof.
  intros Hne. split_and!.
  - by apply set_line_line_ne.
  - unfold GameTextBank.line_exists, map_contains. simpl.
    by rewrite lookup_insert_ne.
  - done.
Qed.

Lemma set_line_other_lines_witness :
  GameTextBank.line 6 (GameTextBank.set_line 5 "Hello" (GameTextBank.new 0)) =
    GameTextBank.line 6 (GameTextBank.new 0) ∧
  GameTextBank.line_exists 6
    (GameTextBank.set_line 5 "Hello" (GameTextBank.new 0)) =
    GameTextBank.line_exists 6 (GameTextBank.new 0) ∧
  GameTextBank.lang (GameTextBank.set_line 5 "Hello" (GameTextBank.new 0)) =
    GameTextBank.lang (GameTextBank.new 0).
Proof.
  apply (set_line_other_lines (GameTextBank.new 0) 5 6 "Hello"). lia.
Defined.

(** X2. The probe and the required lookup agree: [line(id)] returns a text
    exactly when [line_exists(id)] is true, and throws [std::out_of_range]
    exactly when it is false. *)
Theorem line_exists_guards_line (b : GameTextBank.t) (id : Z) :
  (GameTextBank.line_exists id b = true ↔
     ∃ text, GameTextBank.line id b = Ok text) ∧
  (GameTextBank.line_exists id b = false ↔
     GameTextBank.line id b = Err out_of_range).
Proof.
  unfold GameTextBank.line_exists, GameTextBank.line, map_contains, map_at.
  destruct (GameTextBank.m_lines b !! id) as [text|]; split; split;
    try done.
  - intros _. by exists text.
  - by intros [text' ?].
Qed.

Lemma set_lines_snoc (writes : list (Z * string)) (w : Z * string)
    (b : GameTextBank.t) :
  set_lines (writes ++ [w]) b = GameTextBank.set_line w.1 w.2 (set_lines writes b).
Proof. unfold set_lines. by rewrite foldl_snoc. Qed.

Lemma set_lines_app (writes writes' : list (Z * string)) (b : GameTextBank.t) :
  set_lines (writes ++ writes') b = set_lines writes' (set_lines writes b).
Proof. unfold set_lines. by rewrite foldl_app. Qed.

(** Writes to other lines leave a line as it was. *)
Lemma set_lines_untouched (writes : list (Z * string)) (id : Z)
    (b : GameTextBank.t) :
  id ∉ writes.*1 →
  GameTextBank.line id (set_lines writes b) = GameTextBank.line id b.
Proof.
  induction writes as [|w writes IH] using rev_ind; [done|].
  rewrite fmap_app, elem_of_app. simpl. intros Hid.
  rewrite set_lines_snoc, set_line_line_ne.
  - apply IH. intros ?. apply Hid. by left.
  - intros Heq. apply Hid. right. rewrite <-Heq. by left.
Qed.

(** X3. After a sequence of [set_line] calls, a line reads the text of the
    last call that wrote it, whatever came before; a line that no call wrote
    reads as at the start. *)
Theorem set_lines_last_write (before after : list (Z * string)) (id : Z)
    (text : string) (b : GameTextBank.t) :
  id ∉ after.*1 →
  GameTextBank.line id (set_lines (before ++ (id, text) :: after) b) = Ok text ∧
  (∀ id', id' ∉ (before ++ (id, text) :: after).*1 →
     GameTextBank.line id' (set_lines (before ++ (id, text) :: after) b) =
       GameTextBank.line id' b).
Proof.
  intros Hafter. split.
  - rewrite set_lines_app. change ((id, text) :: after) with ([(id, text)] ++ after).
    rewrite set_lines_app, set_lines_untouched by done.
    apply set_line_line_eq.
  - intros id' Hid'. by apply set_lines_untouched.
Qed.

Lemma set_lines_last_write_witness :
  GameTextBank.line 5
    (set_lines ([(5%Z, "Hello"); (7%Z, "Bye")] ++ (5%Z, "Hi") :: [(7%Z, "Ciao")])
       (GameTextBank.new 0)) = Ok "Hi" ∧
  (∀ id', id' ∉ ([(5%Z, "Hello"); (7%Z, "Bye")] ++ (5%Z, "Hi") :: [(7%Z, "Ciao")]).*1 →
     GameTextBank.line id'
       (set_lines ([(5%Z, "Hello"); (7%Z, "Bye")] ++ (5%Z, "Hi") :: [(7%Z, "Ciao")])
          (GameTextBank.new 0)) =
       GameTextBank.line id' (GameTextBank.new 0)).
Proof.
  apply (set_lines_last_write [(5%Z, "Hello"); (7%Z, "Bye")] [(7%Z, "Ciao")]
           5 "Hi" (GameTextBank.new 0)).
  simpl. intros Hin. apply list_elem_of_singleton in Hin. lia.
Defined.

(** ** GameTextDB *)

Lemma text_bank_exists_by_id (group : string) (id : Z) (db : GameTextDB.t) :
  GameTextDB.bank_exists group id db =
    bool_decide (is_Some (GameTextDB.m_banks db !! group ≫= (.!! id))).
Proof.
  destruct (GameTextDB.bank_exists group id db) eqn:Hex; symmetry.
  - apply bool_decide_eq_true.
    apply text_bank_exists_spec in Hex as (inner & -> & Hid). done.
  - apply bool_decide_eq_false. apply text_bank_exists_false in Hex.
    rewrite Hex. by intros [? ?].
Qed.

(** A call of [add_bank] either leaves the database alone or stores the
    pointer under a key that was free. *)
Lemma text_add_bank_state (heap : gmap addr GameTextBank.t) (group : string)
    (bank : addr) (db : GameTextDB.t) :
  state_of (GameTextDB.add_bank heap group bank db) = db ∨
  ∃ b, heap !! bank = Some b ∧
       GameTextDB.bank_exists group (GameTextBank.lang b) db = false ∧
       state_of (GameTextDB.add_bank heap group bank db) =
         GameTextDB.store group (GameTextBank.lang b) bank db.
Proof.
  unfold GameTextDB.add_bank. destruct (heap !! bank) as [b|]; [|by left].
  destruct (GameTextDB.bank_exists group (GameTextBank.lang b) db) eqn:Hex;
    simpl; [by left|].
  right. by exists b.
Qed.

(** X4. In the text database the probe and the two lookups agree:
    [bank_by_id] returns a bank exactly when [bank_exists] is true and the
    null pointer exactly when it is false, and where [banks(group)] returns
    the banks of the group, [bank_by_id] returns what they hold for the
    language. *)
Theorem text_bank_exists_guards_lookup (group : string) (id : Z)
    (db : GameTextDB.t) :
  (GameTextDB.bank_exists group id db = true ↔
     ∃ bank, GameTextDB.bank_by_id group id db = Ok (Some bank)) ∧
  (GameTextDB.bank_exists group id db = false ↔
     GameTextDB.bank_by_id group id db = Ok None) ∧
  (∀ inner, GameTextDB.banks group db = Ok inner →
     GameTextDB.bank_by_id group id db = Ok (inner !! id)).
Proof.
  rewrite text_bank_by_id_returns, text_bank_exists_by_id. split_and!.
  - rewrite bool_decide_eq_true. split.
    + intros [bank Hbank]. exists bank. by rewrite Hbank.
    + intros [bank Hbank]. exists bank. by simplify_eq.
  - rewrite bool_decide_eq_false. split.
    + intros Hnone. f_equal. by apply eq_None_not_Some.
    + intros Hnone. simplify_eq. rewrite Hnone. by intros [? ?].
  - intros inner Hinner. apply map_at_Ok in Hinner. by rewrite Hinner.
Qed.

(** X5. A call of [add_bank], whether it succeeds or fails, changes nothing
    under any other key: for every group and language other than the group of
    the call with the language of its bank, the probe and the lookup answer as
    before, and the banks of every other group are as before. *)
Theorem text_add_bank_elsewhere (heap : gmap addr GameTextBank.t)
    (group group' : string) (id' : Z) (bank : addr) (b : GameTextBank.t)
    (db : GameTextDB.t) :
  heap !! bank = Some b →
  (group', id') ≠ (group, GameTextBank.lang b) →
  let db' := state_of (GameTextDB.add_bank heap group bank db) in
  GameTextDB.bank_by_id group' id' db' = GameTextDB.bank_by_id group' id' db ∧
  GameTextDB.bank_exists group' id' db' = GameTextDB.bank_exists group' id' db ∧
  (group' ≠ group → GameTextDB.banks group' db' = GameTextDB.banks group' db).
Proof.
  intros Hb Hne db'.
  destruct (text_add_bank_state heap group bank db)
    as [Hsame|(b' & Hb' & _ & Hstore)]; subst db'.
  { by rewrite Hsame. }
  rewrite Hstore. simplify_eq. split_and!.
  - rewrite !text_bank_by_id_returns, store_lookup.
    by rewrite decide_False by (intros [??]; congruence).
  - rewrite !text_bank_exists_by_id, store_lookup.
    by rewrite decide_False by (intros [??]; congruence).
  - intros Hgroup. unfold GameTextDB.banks, GameTextDB.store, map_at. simpl.
    by rewrite lookup_insert_ne.
Qed.

Lemma text_add_bank_elsewhere_witness :
  let db' := state_of (GameTextDB.add_bank two_text_banks "main" 1%positive
                         (GameTextDB.store "credits" 0 2%positive
                            GameTextDB.empty)) in
  GameTextDB.bank_by_id "credits" 0 db' =
    GameTextDB.bank_by_id "credits" 0
      (GameTextDB.store "credits" 0 2%positive GameTextDB.empty) ∧
  GameTextDB.bank_exists "credits" 0 db' =
    GameTextDB.bank_exists "credits" 0
      (GameTextDB.store "credits" 0 2%positive GameTextDB.empty) ∧
  ("credits" ≠ "main" →
   GameTextDB.banks "credits" db' =
     GameTextDB.banks "credits"
       (GameTextDB.store "credits" 0 2%positive GameTextDB.empty)).
Proof.
  apply (text_add_bank_elsewhere two_text_banks "main" "credits" 0 1%positive
           (GameTextBank.new 0)
           (GameTextDB.store "credits" 0 2%positive GameTextDB.empty)).
  - reflexivity.
  - intros Heq. discriminate Heq.
Defined.

(** X6. [add_bank] on a group the database does not have cannot fail on its
    [ASSERT]: it creates the group, with the bank as its only bank, and the
    groups of the database are the old ones and the new one. *)
Theorem text_add_bank_new_group (heap : gmap addr GameTextBank.t)
    (group : string) (bank : addr) (b : GameTextBank.t) (db : GameTextDB.t) :
  heap !! bank = Some b →
  GameTextDB.m_banks db !! group = None →
  ∃ db',
    GameTextDB.add_bank heap group bank db = Returns bank db' ∧
    GameTextDB.banks group db' = Ok {[ GameTextBank.lang b := bank ]} ∧
    dom (GameTextDB.groups db') = {[ group ]} ∪ dom (GameTextDB.groups db).
Proof.
  intros Hb Hgroup. eexists. split_and!.
  - apply text_add_bank_fresh; [done|].
    apply text_bank_exists_false. by rewrite Hgroup.
  - apply map_at_Ok. simpl. rewrite lookup_insert_eq, Hgroup. simpl.
    by rewrite insert_empty.
  - unfold GameTextDB.groups. simpl. apply dom_insert_L.
Qed.

Lemma text_add_bank_new_group_witness :
  ∃ db',
    GameTextDB.add_bank two_text_banks "main" 1%positive
      (GameTextDB.store "credits" 0 2%positive GameTextDB.empty) =
      Returns 1%positive db' ∧
    GameTextDB.banks "main" db' = Ok {[ 0%Z := 1%positive ]} ∧
    dom (GameTextDB.groups db') =
      {[ "main" ]} ∪
      dom (GameTextDB.groups
             (GameTextDB.store "credits" 0 2%positive GameTextDB.empty)).
Proof.
  apply (text_add_bank_new_group two_text_banks "main" 1%positive
           (GameTextBank.new 0)
           (GameTextDB.store "credits" 0 2%positive GameTextDB.empty));
    vm_compute; reflexivity.
Defined.

Lemma text_add_banks_snoc (calls : list text_add_bank_call)
    (c : text_add_bank_call) (db : GameTextDB.t) :
  text_add_banks (calls ++ [c]) db =
    state_of (GameTextDB.add_bank (call_heap c) (call_group c) (call_bank c)
                (text_add_banks calls db)).
Proof. unfold text_add_banks. by rewrite foldl_snoc. Qed.

(** An invariant of [add_bank] holds of every database built with it. *)
Lemma text_add_banks_ind (P : GameTextDB.t → Prop)
    (calls : list text_add_bank_call) (db : GameTextDB.t) :
  P db →
  (∀ db group lang bank, P db →
     GameTextDB.bank_exists group lang db = false →
     P (GameTextDB.store group lang bank db)) →
  P (text_add_banks calls db).
Proof.
  intros Hdb Hstore. induction calls as [|c calls IH] using rev_ind; [done|].
  rewrite text_add_banks_snoc.
  destruct (text_add_bank_state (call_heap c) (call_group c) (call_bank c)
              (text_add_banks calls db)) as [->|(b & _ & Hfree & ->)]; [done|].
  by apply Hstore.
Qed.

(** X7. A database built from the empty one by [add_bank] has no empty group:
    a group is among the keys of [groups()] exactly when [bank_exists] is true
    for it with some language. *)
Theorem text_groups_have_banks (calls : list text_add_bank_call)
    (group : string) :
  let db := text_add_banks calls GameTextDB.empty in
  group ∈ dom (GameTextDB.groups db) ↔
  ∃ id, GameTextDB.bank_exists group id db = true.
Proof.
  intros db.
  assert (∀ inner, GameTextDB.m_banks db !! group = Some inner → inner ≠ ∅)
    as Hinv.
  { subst db. apply text_add_banks_ind.
    - intros inner Hinner. simpl in Hinner. by rewrite lookup_empty in Hinner.
    - intros db0 group0 lang bank IH _ inner. unfold GameTextDB.store. simpl.
      rewrite lookup_insert. case_decide.
      + intros [= <-]. apply insert_non_empty.
      + apply IH. }
  unfold GameTextDB.groups. rewrite elem_of_dom. split.
  - intros [inner Hinner].
    destruct (map_choose inner) as (id & bank & Hid); [by apply Hinv|].
    exists id. apply text_bank_exists_spec. exists inner. split; [done|].
    by exists bank.
  - intros [id (inner & Hinner & _)%text_bank_exists_spec]. by exists inner.
Qed.

Lemma keeps_langs_refl (heap : gmap addr GameTextBank.t) : keeps_langs heap heap.
Proof. intros p b Hb. by exists b. Qed.

(** Writing a line through a pointer keeps every language. *)
Lemma keeps_langs_set_line (heap : gmap addr GameTextBank.t) (p : addr) (id : Z)
    (text : string) :
  keeps_langs heap (alter (GameTextBank.set_line id text) p heap).
Proof.
  intros q b Hb. rewrite lookup_alter. case_decide as Hq.
  - subst q. rewrite Hb. simpl. by eexists.
  - by exists b.
Qed.

(** Allocating a bank at a free address keeps every language. *)
Lemma keeps_langs_alloc (heap : gmap addr GameTextBank.t) (p : addr)
    (b : GameTextBank.t) :
  heap !! p = None → keeps_langs heap (<[p := b]> heap).
Proof.
  intros Hp q b' Hb'. exists b'. split; [|done].
  rewrite lookup_insert_ne; [done|]. intros ->. congruence.
Qed.

(** X8. In a database built from the empty one by [add_bank], a bank found
    under a language has that language, also after lines were written through
    the pointers or other banks allocated between the calls. *)
Theorem text_banks_under_their_language (heap : gmap addr GameTextBank.t)
    (calls : list text_add_bank_call) (group : string) (id : Z) (bank : addr) :
  Forall (λ c, keeps_langs (call_heap c) heap) calls →
  GameTextDB.bank_by_id group id (text_add_banks calls GameTextDB.empty) =
    Ok (Some bank) →
  ∃ b, heap !! bank = Some b ∧ GameTextBank.lang b = id.
Proof.
  intros Hcalls. rewrite text_bank_by_id_returns. intros [= Hfound].
  revert group id bank Hfound.
  induction calls as [|c calls IH] using rev_ind; intros group id bank.
  { simpl. by rewrite lookup_empty. }
  apply Forall_app in Hcalls as [Hcalls [Hc _]%Forall_cons].
  rewrite text_add_banks_snoc.
  destruct (text_add_bank_state (call_heap c) (call_group c) (call_bank c)
              (text_add_banks calls GameTextDB.empty))
    as [->|(b & Hb & _ & ->)]; [by apply IH|].
  rewrite store_lookup. case_decide as Hkey; [|by apply IH].
  destruct Hkey as [_ <-]. intros [= <-]. by apply Hc.
Qed.

Lemma text_banks_under_their_language_witness :
  ∃ b, two_text_banks_later !! 1%positive = Some b ∧ GameTextBank.lang b = 0%Z.
Proof.
  apply (text_banks_under_their_language two_text_banks_later three_text_calls
           "main" 0 1%positive).
  - repeat constructor;
      first [apply keeps_langs_set_line | apply keeps_langs_refl].
  - vm_compute. reflexivity.
Defined.

(** X9. The text database never drops or replaces a bank: what [bank_by_id]
    finds under a group and a language, it finds there after any further
    calls of [add_bank]. *)
Theorem text_banks_are_kept (calls : list text_add_bank_call) (group : string)
    (id : Z) (bank : addr) (db : GameTextDB.t) :
  GameTextDB.bank_by_id group id db = Ok (Some bank) →
  GameTextDB.bank_by_id group id (text_add_banks calls db) = Ok (Some bank).
Proof.
  rewrite !text_bank_by_id_returns. intros [= Hfound]. f_equal.
  apply (text_add_banks_ind
           (λ db, GameTextDB.m_banks db !! group ≫= (.!! id) = Some bank));
    [done|].
  intros db0 group0 lang bank0 IH Hfree.
  rewrite store_lookup. case_decide as Hkey; [|done].
  destruct Hkey as [-> ->]. apply text_bank_exists_false in Hfree. congruence.
Qed.

Lemma text_banks_are_kept_witness :
  GameTextDB.bank_by_id "main" 0
    (text_add_banks three_text_calls
       (GameTextDB.store "main" 0 2%positive GameTextDB.empty)) =
    Ok (Some 2%positive).
Proof.
  apply (text_banks_are_kept three_text_calls "main" 0 2%positive
           (GameTextDB.store "main" 0 2%positive GameTextDB.empty)).
  vm_compute. reflexivity.
Defined.

(** ** GameSubtitleBank *)

(** A call of [add_scene] either leaves the bank alone or stores the scene
    under its name, which was free. *)
Lemma add_scene_state (scene : GameSubtitleSceneInfo.t) (b : GameSubtitleBank.t) :
  state_of (GameSubtitleBank.add_scene scene b) = b ∨
  GameSubtitleBank.scene_exists (GameSubtitleSceneInfo.name scene) b = false ∧
  state_of (GameSubtitleBank.add_scene scene b) =
    GameSubtitleBank.mk (GameSubtitleBank.m_lang_id b)
      (GameSubtitleBank.m_text_version b) (GameSubtitleBank.m_file_path b)
      (<[GameSubtitleSceneInfo.name scene := scene]>
         (GameSubtitleBank.m_scenes b)).
Proof.
  unfold GameSubtitleBank.add_scene.
  destruct (GameSubtitleBank.scene_exists _ b) eqn:Hex; simpl; [by left|].
  right. split; [done|]. apply map_contains_false in Hex.
  unfold map_insert_new. by rewrite Hex.
Qed.

(** X10. [add_scene] of a scene whose name is free succeeds; afterwards
    [scene_by_name] returns that scene under its name and what it returned
    before under every other name, and the language, the text version and the
    file path of the bank are as before. *)
Theorem add_scene_round_trip (scene : GameSubtitleSceneInfo.t)
    (b : GameSubtitleBank.t) :
  GameSubtitleBank.scene_exists (GameSubtitleSceneInfo.name scene) b = false →
  ∃ b',
    GameSubtitleBank.add_scene scene b = Returns tt b' ∧
    GameSubtitleBank.scene_by_name (GameSubtitleSceneInfo.name scene) b' =
      Ok scene ∧
    (∀ name, name ≠ GameSubtitleSceneInfo.name scene →
       GameSubtitleBank.scene_by_name name b' =
         GameSubtitleBank.scene_by_name name b) ∧
    GameSubtitleBank.lang b' = GameSubtitleBank.lang b ∧
    GameSubtitleBank.m_text_version b' = GameSubtitleBank.m_text_version b ∧
    GameSubtitleBank.m_file_path b' = GameSubtitleBank.m_file_path b.
Proof.
  intros Hfree.
  destruct (add_scene_state scene b) as [Hsame|[_ Hstate]].
  { pose proof (add_scene_key_taken scene b) as Htaken.
    rewrite Hsame in Htaken. congruence. }
  exists (state_of (GameSubtitleBank.add_scene scene b)). split_and!.
  - unfold GameSubtitleBank.add_scene. by rewrite Hfree.
  - rewrite Hstate. apply map_at_Ok. simpl. apply lookup_insert_eq.
  - intros name Hname. rewrite Hstate.
    unfold GameSubtitleBank.scene_by_name, map_at. simpl.
    by rewrite lookup_insert_ne.
  - by rewrite Hstate.
  - by rewrite Hstate.
  - by rewrite Hstate.
Qed.

Lemma add_scene_round_trip_witness :
  ∃ b',
    GameSubtitleBank.add_scene intro_scene (GameSubtitleBank.new 0) =
      Returns tt b' ∧
    GameSubtitleBank.scene_by_name (GameSubtitleSceneInfo.name intro_scene) b' =
      Ok intro_scene ∧
    (∀ name, name ≠ GameSubtitleSceneInfo.name intro_scene →
       GameSubtitleBank.scene_by_name name b' =
         GameSubtitleBank.scene_by_name name (GameSubtitleBank.new 0)) ∧
    GameSubtitleBank.lang b' = GameSubtitleBank.lang (GameSubtitleBank.new 0) ∧
    GameSubtitleBank.m_text_version b' =
      GameSubtitleBank.m_text_version (GameSubtitleBank.new 0) ∧
    GameSubtitleBank.m_file_path b' =
      GameSubtitleBank.m_file_path (GameSubtitleBank.new 0).
Proof.
  apply (add_scene_round_trip intro_scene (GameSubtitleBank.new 0)).
  reflexivity.
Defined.

(** X11. In a subtitle bank the probe and the required lookup agree:
    [scene_by_name] returns a scene exactly when [scene_exists] is true, and
    throws [std::out_of_range] exactly when it is false. *)
Theorem scene_exists_guards_scene_by_name (name : string)
    (b : GameSubtitleBank.t) :
  (GameSubtitleBank.scene_exists name b = true ↔
     ∃ scene, GameSubtitleBank.scene_by_name name b = Ok scene) ∧
  (GameSubtitleBank.scene_exists name b = false ↔
     GameSubtitleBank.scene_by_name name b = Err out_of_range).
Proof.
  unfold GameSubtitleBank.scene_exists, GameSubtitleBank.scene_by_name,
    map_contains, map_at.
  destruct (GameSubtitleBank.m_scenes b !! name) as [scene|]; split; split;
    try done.
  - intros _. by exists scene.
  - by intros [scene' ?].
Qed.

Lemma add_scenes_snoc (scenes : list GameSubtitleSceneInfo.t)
    (scene : GameSubtitleSceneInfo.t) (b : GameSubtitleBank.t) :
  add_scenes (scenes ++ [scene]) b =
    state_of (GameSubtitleBank.add_scene scene (add_scenes scenes b)).
Proof. unfold add_scenes. by rewrite foldl_snoc. Qed.

Lemma add_scenes_app (scenes scenes' : list GameSubtitleSceneInfo.t)
    (b : GameSubtitleBank.t) :
  add_scenes (scenes ++ scenes') b = add_scenes scenes' (add_scenes scenes b).
Proof. unfold add_scenes. by rewrite foldl_app. Qed.

(** A scene that is in the bank stays, whatever is added. *)
Lemma add_scenes_keeps (scenes : list GameSubtitleSceneInfo.t) (name : string)
    (scene : GameSubtitleSceneInfo.t) (b : GameSubtitleBank.t) :
  GameSubtitleBank.m_scenes b !! name = Some scene →
  GameSubtitleBank.m_scenes (add_scenes scenes b) !! name = Some scene.
Proof.
  intros Hscene. induction scenes as [|s scenes IH] using rev_ind; [done|].
  rewrite add_scenes_snoc.
  destruct (add_scene_state s (add_scenes scenes b)) as [->|[Hfree ->]];
    [done|].
  simpl. rewrite lookup_insert_ne; [done|].
  intros <-. apply map_contains_false in Hfree. congruence.
Qed.

(** A name that no added scene has stays free. *)
Lemma add_scenes_free (scenes : list GameSubtitleSceneInfo.t) (name : string)
    (b : GameSubtitleBank.t) :
  name ∉ GameSubtitleSceneInfo.name <$> scenes →
  GameSubtitleBank.m_scenes (add_scenes scenes b) !! name =
    GameSubtitleBank.m_scenes b !! name.
Proof.
  induction scenes as [|s scenes IH] using rev_ind; [done|].
  rewrite fmap_app, elem_of_app. simpl. intros Hname.
  rewrite add_scenes_snoc.
  destruct (add_scene_state s (add_scenes scenes b)) as [->|[_ ->]].
  - apply IH. intros ?. apply Hname. by left.
  - simpl. rewrite lookup_insert_ne.
    + apply IH. intros ?. apply Hname. by left.
    + intros Heq. apply Hname. right. rewrite <-Heq. by left.
Qed.

(** X12. Of several scenes with one name added to a bank, the first one is
    kept: when the name was free and no earlier scene of the sequence has it,
    [scene_by_name] returns that scene after the whole sequence, whatever
    comes later under the same name. *)
Theorem add_scenes_first_wins (before after : list GameSubtitleSceneInfo.t)
    (scene : GameSubtitleSceneInfo.t) (b : GameSubtitleBank.t) :
  GameSubtitleBank.scene_exists (GameSubtitleSceneInfo.name scene) b = false →
  GameSubtitleSceneInfo.name scene ∉ GameSubtitleSceneInfo.name <$> before →
  GameSubtitleBank.scene_by_name (GameSubtitleSceneInfo.name scene)
    (add_scenes (before ++ scene :: after) b) = Ok scene.
Proof.
  intros Hfree Hbefore. apply map_at_Ok.
  rewrite add_scenes_app. change (scene :: after) with ([scene] ++ after).
  rewrite add_scenes_app. apply add_scenes_keeps.
  change (add_scenes [scene] (add_scenes before b))
    with (state_of (GameSubtitleBank.add_scene scene (add_scenes before b))).
  destruct (add_scene_state scene (add_scenes before b)) as [Hsame|[_ ->]].
  - pose proof (add_scene_key_taken scene (add_scenes before b)) as Htaken.
    rewrite Hsame in Htaken. apply map_contains_true in Htaken.
    rewrite add_scenes_free in Htaken by done.
    apply map_contains_false in Hfree. rewrite Hfree in Htaken.
    by destruct Htaken.
  - simpl. apply lookup_insert_eq.
Qed.

Lemma add_scenes_first_wins_witness :
  GameSubtitleBank.scene_by_name (GameSubtitleSceneInfo.name intro_scene)
    (add_scenes ([] ++ intro_scene :: [other_intro_scene])
       (GameSubtitleBank.new 0)) = Ok intro_scene.
Proof.
  apply (add_scenes_first_wins [] [other_intro_scene] intro_scene
           (GameSubtitleBank.new 0)).
  - reflexivity.
  - simpl. apply not_elem_of_nil.
Defined.

(** X13. In a bank built from a new one by [add_scene], a scene found under a
    name has that name and is one of the scenes that were added. *)
Theorem scenes_under_their_name (scenes : list GameSubtitleSceneInfo.t)
    (lang_id : Z) (name : string) (scene : GameSubtitleSceneInfo.t) :
  GameSubtitleBank.scene_by_name name
    (add_scenes scenes (GameSubtitleBank.new lang_id)) = Ok scene →
  GameSubtitleSceneInfo.name scene = name ∧ scene ∈ scenes.
Proof.
  intros Hfound%map_at_Ok. revert Hfound.
  induction scenes as [|s scenes IH] using rev_ind.
  { simpl. by rewrite lookup_empty. }
  rewrite add_scenes_snoc.
  destruct (add_scene_state s (add_scenes scenes (GameSubtitleBank.new lang_id)))
    as [->|[_ ->]].
  - intros [? ?]%IH. split; [done|]. apply elem_of_app. by left.
  - simpl. rewrite lookup_insert. case_decide as Hname.
    + intros [= <-]. split; [done|]. apply elem_of_app. right. by left.
    + intros [? ?]%IH. split; [done|]. apply elem_of_app. by left.
Qed.

Lemma scenes_under_their_name_witness :
  GameSubtitleSceneInfo.name intro_scene = "intro" ∧
  intro_scene ∈ [intro_scene; other_intro_scene].
Proof.
  apply (scenes_under_their_name [intro_scene; other_intro_scene] 0 "intro"
           intro_scene).
  vm_compute. reflexivity.
Defined.

(** ** GameSubtitleDB *)

(** X14. [GameSubtitleDB::add_bank] of a bank whose language is free succeeds
    and returns the pointer; afterwards [bank_by_id] returns that pointer
    under the language and what it returned before under every other one, and
    the scene groups of the database are untouched. *)
Theorem subtitle_add_bank_round_trip (heap : gmap addr GameSubtitleBank.t)
    (bank : addr) (b : GameSubtitleBank.t) (db : GameSubtitleDB.t) :
  heap !! bank = Some b →
  GameSubtitleDB.bank_exists (GameSubtitleBank.lang b) db = false →
  ∃ db',
    GameSubtitleDB.add_bank heap bank db = Returns bank db' ∧
    GameSubtitleDB.bank_by_id (GameSubtitleBank.lang b) db' = Ok (Some bank) ∧
    (∀ id, id ≠ GameSubtitleBank.lang b →
       GameSubtitleDB.bank_by_id id db' = GameSubtitleDB.bank_by_id id db) ∧
    GameSubtitleDB.m_subtitle_groups db' = GameSubtitleDB.m_subtitle_groups db.
Proof.
  intros Hb Hfree. eexists. split_and!.
  - unfold GameSubtitleDB.add_bank. by rewrite Hb, Hfree.
  - rewrite subtitle_bank_by_id_returns. simpl. by rewrite lookup_insert_eq.
  - intros id Hid. rewrite !subtitle_bank_by_id_returns. simpl.
    by rewrite lookup_insert_ne.
  - done.
Qed.

Lemma subtitle_add_bank_round_trip_witness :
  ∃ db',
    GameSubtitleDB.add_bank two_subtitle_banks 1%positive GameSubtitleDB.empty =
      Returns 1%positive db' ∧
    GameSubtitleDB.bank_by_id (GameSubtitleBank.lang (GameSubtitleBank.new 0))
      db' = Ok (Some 1%positive) ∧
    (∀ id, id ≠ GameSubtitleBank.lang (GameSubtitleBank.new 0) →
       GameSubtitleDB.bank_by_id id db' =
         GameSubtitleDB.bank_by_id id GameSubtitleDB.empty) ∧
    GameSubtitleDB.m_subtitle_groups db' =
      GameSubtitleDB.m_subtitle_groups GameSubtitleDB.empty.
Proof.
  apply (subtitle_add_bank_round_trip two_subtitle_banks 1%positive
           (GameSubtitleBank.new 0) GameSubtitleDB.empty); reflexivity.
Defined.

(** X15. In the subtitle database the probe and the lookup agree:
    [bank_by_id] returns a bank exactly when [bank_exists] is true and the
    null pointer exactly when it is false. *)
Theorem subtitle_bank_exists_guards_lookup (id : Z) (db : GameSubtitleDB.t) :
  (GameSubtitleDB.bank_exists id db = true ↔
     ∃ bank, GameSubtitleDB.bank_by_id id db = Ok (Some bank)) ∧
  (GameSubtitleDB.bank_exists id db = false ↔
     GameSubtitleDB.bank_by_id id db = Ok None).
Proof.
  rewrite subtitle_bank_by_id_returns.
  unfold GameSubtitleDB.bank_exists, map_contains.
  destruct (GameSubtitleDB.m_banks db !! id) as [bank|]; split; split;
    try done.
  - intros _. by exists bank.
  - by intros [bank' ?].
Qed.

(** ** GameSubtitleSceneInfo *)

(** The lines after a sequence of calls depend on the lines before only. *)
Lemma perform_all_lines_only
    (std_sort : list SubtitleLine.t → list SubtitleLine.t)
    (cs : list scene_call) (s s' : GameSubtitleSceneInfo.t) :
  GameSubtitleSceneInfo.lines s = GameSubtitleSceneInfo.lines s' →
  GameSubtitleSceneInfo.lines (perform_all std_sort cs s) =
    GameSubtitleSceneInfo.lines (perform_all std_sort cs s').
Proof.
  intros Hlines. induction cs as [|c cs IH] using rev_ind; [done|].
  by rewrite !perform_all_snoc, !perform_lines, IH.
Qed.

(** The calls leave everything but the lines alone. *)
Lemma perform_all_rest
    (std_sort : list SubtitleLine.t → list SubtitleLine.t)
    (cs : list scene_call) (s : GameSubtitleSceneInfo.t) :
  perform_all std_sort cs s =
    GameSubtitleSceneInfo.with_lines
      (GameSubtitleSceneInfo.lines (perform_all std_sort cs s)) s.
Proof.
  induction cs as [|c cs IH] using rev_ind.
  - by destruct s.
  - rewrite perform_all_snoc. rewrite IH at 1. by destruct c.
Qed.

(** X16. One call of [add_line] or [add_clear_entry] puts the lines of any
    scene in order, also a scene whose lines were out of order before: after
    one or more calls the lines are non-decreasing in frame, and they are the
    lines the scene had and the inserted ones, rearranged. *)
Theorem calls_sort_any_scene
    (std_sort : list SubtitleLine.t → list SubtitleLine.t)
    (s : GameSubtitleSceneInfo.t) (cs : list scene_call) :
  std_sort_contract std_sort →
  cs ≠ [] →
  nondecreasing_in_frame
    (GameSubtitleSceneInfo.lines (perform_all std_sort cs s)) ∧
  GameSubtitleSceneInfo.lines (perform_all std_sort cs s) ≡ₚ
    GameSubtitleSceneInfo.lines s ++ (inserted <$> cs).
Proof.
  intros contract Hcs. split.
  - by apply perform_all_ascending.
  - by apply perform_all_permutes.
Qed.

Lemma calls_sort_any_scene_witness :
  nondecreasing_in_frame
    (GameSubtitleSceneInfo.lines
       (perform_all merge_sort_lines [call_add_clear_entry 20] unsorted_scene)) ∧
  GameSubtitleSceneInfo.lines
    (perform_all merge_sort_lines [call_add_clear_entry 20] unsorted_scene) ≡ₚ
    GameSubtitleSceneInfo.lines unsorted_scene ++
      (inserted <$> [call_add_clear_entry 20]).
Proof.
  apply (calls_sort_any_scene merge_sort_lines unsorted_scene
           [call_add_clear_entry 20]).
  - exact merge_sort_lines_contract.
  - discriminate.
Defined.

(** X17. [add_line] and [add_clear_entry] change the lines only, and each call
    makes them one more: after a sequence of calls the name, the id, the kind
    and the sorting fields of the scene are as before, and the number of lines
    is the number before plus the number of calls. *)
Theorem calls_change_lines_only
    (std_sort : list SubtitleLine.t → list SubtitleLine.t)
    (s : GameSubtitleSceneInfo.t) (cs : list scene_call) :
  std_sort_contract std_sort →
  let s' := perform_all std_sort cs s in
  GameSubtitleSceneInfo.name s' = GameSubtitleSceneInfo.name s ∧
  GameSubtitleSceneInfo.id s' = GameSubtitleSceneInfo.id s ∧
  GameSubtitleSceneInfo.kind s' = GameSubtitleSceneInfo.kind s ∧
  GameSubtitleSceneInfo.m_sorting_group s' =
    GameSubtitleSceneInfo.m_sorting_group s ∧
  GameSubtitleSceneInfo.m_sorting_group_idx s' =
    GameSubtitleSceneInfo.m_sorting_group_idx s ∧
  length (GameSubtitleSceneInfo.lines s') =
    (length (GameSubtitleSceneInfo.lines s) + length cs)%nat.
Proof.
  intros contract s'. subst s'. rewrite perform_all_rest. split_and!; try done.
  simpl. rewrite (perform_all_permutes _ contract).
  by rewrite length_app, length_fmap.
Qed.

Lemma calls_change_lines_only_witness :
  let s' := perform_all merge_sort_lines mixed_calls unsorted_scene in
  GameSubtitleSceneInfo.name s' = GameSubtitleSceneInfo.name unsorted_scene ∧
  GameSubtitleSceneInfo.id s' = GameSubtitleSceneInfo.id unsorted_scene ∧
  GameSubtitleSceneInfo.kind s' = GameSubtitleSceneInfo.kind unsorted_scene ∧
  GameSubtitleSceneInfo.m_sorting_group s' =
    GameSubtitleSceneInfo.m_sorting_group unsorted_scene ∧
  GameSubtitleSceneInfo.m_sorting_group_idx s' =
    GameSubtitleSceneInfo.m_sorting_group_idx unsorted_scene ∧
  length (GameSubtitleSceneInfo.lines s') =
    (length (GameSubtitleSceneInfo.lines unsorted_scene) +
     length mixed_calls)%nat.
Proof.
  apply (calls_change_lines_only merge_sort_lines unsorted_scene mixed_calls).
  exact merge_sort_lines_contract.
Defined.

(** X18. [clear_lines] starts the lines afresh and keeps the rest: the calls
    made after it give the lines they give on a new scene, whatever the lines
    were before, and the name, the id and the kind are those before
    [clear_lines]. *)
Theorem clear_lines_starts_afresh
    (std_sort : list SubtitleLine.t → list SubtitleLine.t)
    (s : GameSubtitleSceneInfo.t) (kind : SubtitleSceneKind)
    (cs : list scene_call) :
  let s' := perform_all std_sort cs (GameSubtitleSceneInfo.clear_lines s) in
  GameSubtitleSceneInfo.lines s' =
    GameSubtitleSceneInfo.lines
      (perform_all std_sort cs (GameSubtitleSceneInfo.new kind)) ∧
  GameSubtitleSceneInfo.name s' = GameSubtitleSceneInfo.name s ∧
  GameSubtitleSceneInfo.id s' = GameSubtitleSceneInfo.id s ∧
  GameSubtitleSceneInfo.kind s' = GameSubtitleSceneInfo.kind s.
Proof.
  intros s'. subst s'. split.
  - by apply perform_all_lines_only.
  - by rewrite perform_all_rest.
Qed.

(** X19. Without two lines at the same frame the order of the calls does not
    matter: the same calls made in another order on a new scene give the same
    lines. *)
Theorem calls_commute_without_ties
    (std_sort : list SubtitleLine.t → list SubtitleLine.t)
    (kind : SubtitleSceneKind) (cs cs' : list scene_call) :
  std_sort_contract std_sort →
  cs ≡ₚ cs' →
  NoDup (SubtitleLine.frame <$> (inserted <$> cs)) →
  GameSubtitleSceneInfo.lines
    (perform_all std_sort cs (GameSubtitleSceneInfo.new kind)) =
  GameSubtitleSceneInfo.lines
    (perform_all std_sort cs' (GameSubtitleSceneInfo.new kind)).
Proof.
  intros contract Hperm Hnd.
  pose proof (perform_all_permutes _ contract (GameSubtitleSceneInfo.new kind) cs)
    as Hcs.
  pose proof (perform_all_permutes _ contract (GameSubtitleSceneInfo.new kind) cs')
    as Hcs'.
  simpl in Hcs, Hcs'. apply ascending_unique.
  - by rewrite Hcs.
  - apply ascending_nondecreasing. by apply perform_all_new_ascending.
  - apply ascending_nondecreasing. by apply perform_all_new_ascending.
  - by rewrite Hcs, Hcs', Hperm.
Qed.

Lemma calls_commute_without_ties_witness :
  GameSubtitleSceneInfo.lines
    (perform_all merge_sort_lines three_calls (GameSubtitleSceneInfo.new Movie)) =
  GameSubtitleSceneInfo.lines
    (perform_all merge_sort_lines three_calls_reordered
       (GameSubtitleSceneInfo.new Movie)).
Proof.
  apply (calls_commute_without_ties merge_sort_lines Movie three_calls
           three_calls_reordered).
  - exact merge_sort_lines_contract.
  - unfold three_calls, three_calls_reordered.
    apply Permutation_cons_append.
  - compute_done.
Defined.

(** ** std::sort of libstdc++ on a scene of at most sixteen lines *)

Section libstdcxx_insertion.

Context {T : Type} (comp : T → T → bool).
Implicit Types (a p r : list T) (x val : T).

Lemma put_same (i : nat) x a : a !! i = Some x → libstdcxx.put i x a = Some a.
Proof.
  intros Hi. unfold libstdcxx.put.
  rewrite decide_True by (by eapply lookup_lt_Some).
  by rewrite list_insert_id.
Qed.

Lemma put_hole p x val r :
  libstdcxx.put (length p) val (p ++ x :: r) = Some (p ++ val :: r).
Proof.
  unfold libstdcxx.put.
  rewrite decide_True by (rewrite length_app; simpl; lia).
  f_equal. rewrite <-(Nat.add_0_r (length p)) at 1. by rewrite insert_app_r.
Qed.

(** With an element in [p] that [val] is not less than, the loop of
    [__unguarded_linear_insert] started on the hole after [p] puts [val] before
    the elements at the end of [p] that it is less than, and moves nothing
    else. *)
Lemma linear_insert_loop_settles p x r val :
  Exists (λ e, comp val e = false) p →
  ∃ p1 p2 e,
    p = p1 ++ p2 ∧
    Forall (λ e, comp val e = true) p2 ∧
    last p1 = Some e ∧ comp val e = false ∧
    libstdcxx.linear_insert_loop comp val (length p) (p ++ x :: r) =
      Some (p1 ++ val :: p2 ++ r).
Proof.
  revert x r. induction p as [|e p IH] using rev_ind; intros x r Hex.
  { by apply Exists_nil in Hex. }
  rewrite length_app. simpl. rewrite Nat.add_1_r. simpl.
  rewrite <-app_assoc. simpl. rewrite list_lookup_middle by done. simpl.
  destruct (comp val e) eqn:Hval.
  - change (p ++ e :: x :: r) with (p ++ [e] ++ x :: r).
    rewrite app_assoc.
    replace (S (length p)) with (length (p ++ [e]))
      by (rewrite length_app; simpl; lia).
    rewrite put_hole. simpl. rewrite <-app_assoc. simpl.
    destruct (IH e (e :: r)) as (p1 & p2 & e' & -> & Hp2 & Hlast & He' & ->).
    { apply Exists_app in Hex as [Hex|Hex]; [done|].
      apply Exists_cons in Hex as [Hex|Hex]; [congruence|].
      by apply Exists_nil in Hex. }
    exists p1, (p2 ++ [e]), e'. split_and!; try done.
    + by rewrite app_assoc.
    + apply Forall_app. split; [done|]. by constructor.
    + by rewrite <-!app_assoc.
  - exists (p ++ [e]), [], e. split_and!; try done.
    + by rewrite app_nil_r.
    + apply last_snoc.
    + change (p ++ e :: x :: r) with (p ++ [e] ++ x :: r).
      rewrite app_assoc.
      replace (S (length p)) with (length (p ++ [e]))
        by (rewrite length_app; simpl; lia).
      by rewrite put_hole.
Qed.

(** Below the threshold [__introsort_loop] does nothing and the final pass is
    one [__insertion_sort]. *)
Lemma sort_below_threshold a :
  a ≠ [] → (length a ≤ 16)%nat →
  libstdcxx.sort comp a = libstdcxx.__insertion_sort comp 0 (length a) a.
Proof.
  intros Ha Hlen. unfold libstdcxx.sort, libstdcxx.__sort.
  rewrite decide_False by (destruct a; [done|simpl; lia]).
  assert (∀ d, libstdcxx.__introsort_loop comp d 0 (length a) a = Some a) as ->.
  { intros d. destruct d; simpl;
      by rewrite decide_False by (unfold libstdcxx._S_threshold; lia). }
  simpl. unfold libstdcxx.__final_insertion_sort.
  by rewrite decide_False by (unfold libstdcxx._S_threshold; lia).
Qed.

End libstdcxx_insertion.

(** A turn of [__insertion_sort] on an element that is in its place moves
    nothing. *)
Lemma insertion_step_in_order (l r : list SubtitleLine.t) (i : nat) :
  ascending l → (1 ≤ i < length l)%nat →
  libstdcxx.insertion_sort_step SubtitleLine.lt 0 (Some (l ++ r)) i =
    Some (l ++ r).
Proof.
  intros Hasc [Hi Hlen]. unfold libstdcxx.insertion_sort_step. simpl.
  destruct (lookup_lt_is_Some_2 l i) as [xi Hxi]; [done|].
  destruct (lookup_lt_is_Some_2 l 0) as [x0 Hx0]; [lia|].
  rewrite !lookup_app_l by lia. rewrite Hxi, Hx0. simpl.
  rewrite (Hasc 0%nat i x0 xi) by (done || lia).
  unfold libstdcxx.__unguarded_linear_insert.
  rewrite lookup_app_l by lia. rewrite Hxi. simpl.
  destruct i as [|next]; [lia|]. simpl.
  destruct (lookup_lt_is_Some_2 l next) as [xn Hxn]; [lia|].
  rewrite lookup_app_l by lia. rewrite Hxn. simpl.
  rewrite (Hasc next (S next) xn xi) by (done || lia).
  apply put_same. by rewrite lookup_app_l by lia.
Qed.

Lemma insertion_steps_in_order (l r : list SubtitleLine.t) (k : nat) :
  ascending l → (k < length l)%nat →
  foldl (libstdcxx.insertion_sort_step SubtitleLine.lt 0) (Some (l ++ r))
    (seq 1 k) = Some (l ++ r).
Proof.
  intros Hasc. induction k as [|k IH]; intros Hk; [done|].
  rewrite seq_S, foldl_snoc, IH by lia.
  apply insertion_step_in_order; [done|lia].
Qed.

Lemma at_frame_app (f : Z) (l k : list SubtitleLine.t) :
  at_frame f (l ++ k) = at_frame f l ++ at_frame f k.
Proof. apply filter_app. Qed.

Lemma at_frame_none (f : Z) (l : list SubtitleLine.t) :
  Forall (λ e, SubtitleLine.frame e ≠ f) l → at_frame f l = [].
Proof.
  induction 1 as [|e l He _ IH]; [done|].
  unfold at_frame in *. by rewrite filter_cons_False.
Qed.

(** Where [x] goes when it is sorted into lines that are in order: after the
    lines it is not less than, before the lines it is less than. *)
Lemma settled_in_order (p1 p2 : list SubtitleLine.t) (x : SubtitleLine.t) :
  ascending (p1 ++ p2) →
  Forall (λ e, SubtitleLine.lt x e = true) p2 →
  Forall (λ e, SubtitleLine.lt x e = false) p1 →
  ascending (p1 ++ x :: p2) ∧
  ∀ f, at_frame f (p1 ++ x :: p2) = at_frame f ((p1 ++ p2) ++ [x]).
Proof.
  intros Hasc Hp2 Hp1. split.
  - apply ascending_StronglySorted, StronglySorted_app.
    apply ascending_StronglySorted, StronglySorted_app in Hasc
      as (Hcross & Hs1 & Hs2).
    split_and!; [|done|].
    + intros a b Ha [->|Hb]%elem_of_cons; [|by apply Hcross].
      rewrite Forall_forall in Hp1. by apply lt_false_le_frame, Hp1.
    + apply StronglySorted_cons. split; [|done].
      eapply Forall_impl; [exact Hp2|]. intros e He. simpl. unfold le_frame.
      unfold SubtitleLine.lt in He. apply bool_decide_eq_true in He. lia.
  - intros f. change (x :: p2) with ([x] ++ p2).
    rewrite !at_frame_app.
    destruct (decide (SubtitleLine.frame x = f)) as [<-|Hf].
    + rewrite (at_frame_none _ p2), !app_nil_r; [done|].
      eapply Forall_impl; [exact Hp2|]. intros e He. simpl.
      unfold SubtitleLine.lt in He. apply bool_decide_eq_true in He. lia.
    + rewrite (at_frame_none _ [x]) by (by repeat constructor).
      simpl. by rewrite app_nil_r.
Qed.

(** The sort of libstdc++ on lines that are in order, and one more at the
    end, while there are at most sixteen: it returns, the result is in order
    and no two lines of one frame have changed places. *)
Lemma libstdcxx_sort_appended (l : list SubtitleLine.t) (x : SubtitleLine.t) :
  ascending l → (length l < 16)%nat →
  ∃ res,
    libstdcxx.sort SubtitleLine.lt (l ++ [x]) = Some res ∧
    ascending res ∧
    (∀ f, at_frame f res = at_frame f (l ++ [x])) ∧
    length res = S (length l).
Proof.
  intros Hasc Hlen.
  pose proof (sort_below_threshold SubtitleLine.lt (l ++ [x])) as Hsort.
  rewrite length_app in Hsort. simpl in Hsort.
  specialize (Hsort ltac:(by destruct l) ltac:(lia)).
  unfold libstdcxx.__insertion_sort in Hsort.
  rewrite decide_False in Hsort by lia.
  replace (length l + 1 - 1)%nat with (length l) in Hsort by lia.
  destruct l as [|x0 l' _] using rev_ind.
  { exists [x]. split_and!; try done.
    apply ascending_StronglySorted. repeat constructor. }
  set (l := l' ++ [x0]) in *.
  assert (length l = S (length l')) as Hl
    by (subst l; rewrite length_app; simpl; lia).
  rewrite Hl, seq_S, foldl_snoc, insertion_steps_in_order in Hsort
    by (done || lia).
  unfold libstdcxx.insertion_sort_step in Hsort. simpl in Hsort.
  rewrite <-Hl in Hsort.
  rewrite (list_lookup_middle l [] x (length l)) in Hsort by done.
  simpl in Hsort.
  destruct (lookup_lt_is_Some_2 l 0) as [first Hfirst]; [lia|].
  rewrite lookup_app_l in Hsort by lia. rewrite Hfirst in Hsort.
  simpl in Hsort.
  destruct (SubtitleLine.lt x first) eqn:Hx.
  - rewrite drop_0, take_app_length, drop_ge, app_nil_r in Hsort
      by (rewrite length_app; simpl; lia).
    exists (x :: l).
    assert (Forall (λ e, SubtitleLine.lt x e = true) l) as Hall.
    { apply Forall_lookup. intros i e Hi.
      unfold SubtitleLine.lt in *. apply bool_decide_eq_true in Hx.
      apply bool_decide_eq_true.
      destruct i as [|i]; [by simplify_eq|].
      pose proof (Hasc 0%nat (S i) first e ltac:(lia) Hfirst Hi) as Hle.
      apply lt_false_le_frame in Hle. unfold le_frame in Hle. lia. }
    destruct (settled_in_order [] l x) as [Hres Hframes]; [done..|].
    split_and!; done.
  - unfold libstdcxx.__unguarded_linear_insert in Hsort.
    rewrite (list_lookup_middle l [] x (length l)) in Hsort by done.
    simpl in Hsort.
    destruct (linear_insert_loop_settles SubtitleLine.lt l x [] x)
      as (p1 & p2 & e & Hsplit & Hp2 & Hlast & He & Hloop).
    { apply Exists_exists. exists first. split; [|done].
      by eapply list_elem_of_lookup_2. }
    rewrite Hloop, app_nil_r in Hsort. exists (p1 ++ x :: p2).
    assert (Forall (λ e, SubtitleLine.lt x e = false) p1) as Hp1.
    { apply last_Some in Hlast as [q ->]. rewrite Hsplit in Hasc.
      apply ascending_StronglySorted in Hasc.
      apply StronglySorted_app in Hasc as (_ & Hq & _).
      apply StronglySorted_app in Hq as (Hcross & _ & _).
      apply Forall_app. split; [|by repeat constructor].
      apply Forall_forall. intros a Ha.
      specialize (Hcross a e Ha ltac:(by left)).
      unfold SubtitleLine.lt, le_frame in *.
      apply bool_decide_eq_false in He. apply bool_decide_eq_false. lia. }
    destruct (settled_in_order p1 p2 x) as [Hres Hframes];
      [by rewrite <-Hsplit|done..|].
    split_and!; [done|done|by rewrite Hsplit|].
    rewrite Hsplit, !length_app. simpl. lia.
Qed.

Lemma libstdcxx_calls_in_order
    (std_sort : list SubtitleLine.t → list SubtitleLine.t)
    (kind : SubtitleSceneKind) (cs : list scene_call) :
  agrees_with_libstdcxx std_sort → (length cs ≤ 16)%nat →
  let lines :=
    GameSubtitleSceneInfo.lines
      (perform_all std_sort cs (GameSubtitleSceneInfo.new kind)) in
  ascending lines ∧
  (∀ f, at_frame f lines = at_frame f (inserted <$> cs)) ∧
  length lines = length cs.
Proof.
  intros Hagree. induction cs as [|c cs IH] using rev_ind; intros Hlen.
  { simpl. by split_and!. }
  rewrite length_app in Hlen. simpl in Hlen.
  destruct IH as (Hasc & Hframes & Hlength); [lia|].
  simpl. rewrite perform_all_snoc, perform_lines.
  destruct (libstdcxx_sort_appended
              (GameSubtitleSceneInfo.lines
                 (perform_all std_sort cs (GameSubtitleSceneInfo.new kind)))
              (inserted c))
    as (res & Hres & Hres_asc & Hres_frames & Hres_length); [done|lia|].
  rewrite (Hagree _ _ Hres). split_and!.
  - done.
  - intros f. rewrite Hres_frames, fmap_app, !at_frame_app. by rewrite Hframes.
  - rewrite Hres_length, length_app. simpl. lia.
Qed.

(** X20. With the [std::sort] of libstdc++, a scene keeps the lines of equal
    frame in the order they were inserted as long as at most sixteen lines
    were added to it: after up to sixteen [add_line] and [add_clear_entry]
    calls on a new scene the lines are non-decreasing in frame and, frame by
    frame, in insertion order. *)
Theorem libstdcxx_keeps_ties_up_to_sixteen
    (std_sort : list SubtitleLine.t → list SubtitleLine.t)
    (kind : SubtitleSceneKind) (cs : list scene_call) :
  agrees_with_libstdcxx std_sort →
  (length cs ≤ 16)%nat →
  let s := perform_all std_sort cs (GameSubtitleSceneInfo.new kind) in
  nondecreasing_in_frame (GameSubtitleSceneInfo.lines s) ∧
  keeps_insertion_order (inserted <$> cs) (GameSubtitleSceneInfo.lines s).
Proof.
  intros Hagree Hlen s.
  destruct (libstdcxx_calls_in_order std_sort kind cs Hagree Hlen)
    as (Hasc & Hframes & _).
  split; [by apply ascending_nondecreasing|done].
Qed.

Lemma libstdcxx_keeps_ties_up_to_sixteen_witness :
  let s := perform_all libstdcxx_sort_lines mixed_calls
             (GameSubtitleSceneInfo.new Movie) in
  nondecreasing_in_frame (GameSubtitleSceneInfo.lines s) ∧
  keeps_insertion_order (inserted <$> mixed_calls)
    (GameSubtitleSceneInfo.lines s).
Proof.
  apply (libstdcxx_keeps_ties_up_to_sixteen libstdcxx_sort_lines Movie
           mixed_calls).
  - exact libstdcxx_sort_lines_agrees.
  - vm_compute. lia.
Defined.
